(** * option_file_parser: a shallow embedding of [option_file_parser.cpp]

    The program edits a flat [key=value] file: it reads the values of some
    keys, sets some keys, or deletes some keys.  This development embeds the
    string helpers ([ltrim], [rtrim], [trim]), the [lineHasKey] lambda, the
    three loops of [main] (read, write, delete), the parsing of the
    positional arguments and the control flow of [main] around the two file
    streams, and states the properties of the program over them.

    Layout: the program ([StdString], [lineHasKey], [ReadMode],
    [WriteMode], [DeleteMode], [Cli]); the vocabulary of the statements;
    lemmas on each part; the properties of the program, each under the
    identifier of the claim it settles.

    Conventions.
    - [std::string] is [string]; [std::string::npos] is [None].
    - [std::list] is [list]; [std::map<std::string, std::string>] is
      [gmap string string].
    - A file is its bytes; the Line Store is what repeated [std::getline]
      calls yield from them ([getlines]).
    - [std::cerr] carries diagnostics only and is not modelled. *)

From Stdlib Require Import Ascii String ZArith.
From stdpp Require Import base option list strings gmap.

Local Open Scope string_scope.

(** ** [std::string] and the trimming helpers *)

Module StdString.

(** The class [\s] of [std::regex]: the [space] class of the "C" locale
    (the program never installs another one), that is, the blank and the
    control characters 9 to 13. *)
Definition is_space (c : ascii) : bool :=
  let n := nat_of_ascii c in
  (n =? 32)%nat || ((9 <=? n)%nat && (n <=? 13)%nat).

(** [std::regex_replace(s, std::regex("^\\s+"), "")]: the regex is built
    without the [multiline] option, [^] only matches at the start of the
    string, and the one match is the longest run of [\s] the string starts
    with. *)
Fixpoint ltrim (s : string) : string :=
  match s with
  | "" => ""
  | String c s' => if is_space c then ltrim s' else s
  end.

(** [std::regex_replace(s, std::regex("\\s+$"), "")]: the leftmost match
    of [\s+$] is the whole run of [\s] the string ends with. *)
Fixpoint rtrim (s : string) : string :=
  match s with
  | "" => ""
  | String c s' =>
      match rtrim s' with
      | "" => if is_space c then "" else String c ""
      | r => String c r
      end
  end.

Definition trim (s : string) : string := ltrim (rtrim s).

(** [s.find_first_of("=", 0)], for a one-character set. *)
Fixpoint find_first_of (c : ascii) (s : string) : option nat :=
  match s with
  | "" => None
  | String d s' => if Ascii.eqb d c then Some 0 else S <$> find_first_of c s'
  end.

(** [s.substr(pos, n)]; every call of the program has [pos <= s.size()],
    where [substr] does not throw and stops at the end of [s], as
    [substring] does. *)
Definition substr (s : string) (pos n : nat) : string := substring pos n s.

(** [s[0] == c]; on the empty string [s[0]] is the terminating NUL. *)
Definition first_is (c : ascii) (s : string) : bool :=
  match s with
  | "" => Ascii.eqb zero c
  | String d _ => Ascii.eqb d c
  end.

End StdString.
Import StdString.

(** ** The Line Store and the key-edit engine *)

(** The lambda [lineHasKey] of [main].  [line.size() - 1] is unsigned; it
    would wrap on an empty line only, where [find_first_of] has already
    answered [npos], so the subtraction on [nat] is the one of the code
    (see [find_first_of_lt]). *)
Definition lineHasKey (line key : string) : option nat :=
  match find_first_of "=" line with
  | Some eq_pos =>
      if (0 <? eq_pos)%nat && (eq_pos <? String.length line - 1)%nat then
        if bool_decide (trim (substr line 0 eq_pos) = key)
        then Some eq_pos else None
      else None
  | None => None
  end.

(** [input_line[0] == '#'] *)
Definition is_comment (line : string) : bool := first_is "#" line.

(** [it->first + "=" + it->second] *)
Definition key_value_line (kv : string * string) : string :=
  kv.1 ++ "=" ++ kv.2.

Module ReadMode.

(** [keyValueMap.emplace(key, value)]: inserts only if [key] is absent. *)
Definition emplace (key value : string) (m : gmap string string)
  : gmap string string :=
  match m !! key with
  | Some _ => m
  | None => <[key := value]> m
  end.

(** The inner loop over [keysToReadOrDelete] for one line. *)
Fixpoint read_line (line : string) (keys : list string)
    (m : gmap string string) : gmap string string :=
  match keys with
  | [] => m
  | key :: keys' =>
      match lineHasKey line key with
      | Some eq_pos =>
          read_line line keys'
            (emplace key
               (trim (substr line (eq_pos + 1) (String.length line))) m)
      | None => read_line line keys' m
      end
  end.

(** The [while (std::getline(...))] loop. *)
Fixpoint read_scan (lines : list string) (keys : list string)
    (m : gmap string string) : gmap string string :=
  match lines with
  | [] => m
  | line :: lines' =>
      if is_comment line then read_scan lines' keys m
      else read_scan lines' keys (read_line line keys m)
  end.

(** [keyValueMap[key]]: a missing key is inserted with the empty string. *)
Definition index (key : string) (m : gmap string string)
  : string * gmap string string :=
  match m !! key with
  | Some v => (v, m)
  | None => ("", <[key := ""]> m)
  end.

(** The output loop: one [std::cout] line per element of the key list. *)
Fixpoint emit (keys : list string) (m : gmap string string) : list string :=
  match keys with
  | [] => []
  | key :: keys' => let '(v, m') := index key m in v :: emit keys' m'
  end.

Definition read_mode (lines keys : list string) : list string :=
  emit keys (read_scan lines keys ∅).

End ReadMode.

(** [std::list::unique(pred)]: of every run of consecutive elements that
    [pred] relates to the first one of the run, only that first one stays. *)
Section Unique.
Context {A : Type} (pred : A → A → bool).

Fixpoint unique_from (first : A) (l : list A) : list A :=
  match l with
  | [] => []
  | next :: l' =>
      if pred first next then unique_from first l'
      else next :: unique_from next l'
  end.

Definition unique (l : list A) : list A :=
  match l with
  | [] => []
  | first :: l' => first :: unique_from first l'
  end.
End Unique.

Module WriteMode.

(** The inner loop over [keysToWrite] for one line: a matching pair
    replaces the line and is erased from the list, and the loop goes on
    with the replaced line and the rest of the list. *)
Fixpoint write_line (line : string) (keysToWrite : list (string * string))
  : string * list (string * string) :=
  match keysToWrite with
  | [] => (line, [])
  | kv :: rest =>
      match lineHasKey line kv.1 with
      | Some _ => write_line (key_value_line kv) rest
      | None => let '(line', rest') := write_line line rest in
                (line', kv :: rest')
      end
  end.

(** The outer loop over [all_file_lines]. *)
Fixpoint write_scan (lines : list string) (keysToWrite : list (string * string))
  : list string * list (string * string) :=
  match lines with
  | [] => ([], keysToWrite)
  | line :: lines' =>
      let '(line', pending) := write_line line keysToWrite in
      let '(written, remaining) := write_scan lines' pending in
      (line' :: written, remaining)
  end.

(** Both loops, then one appended line per pair that is left. *)
Definition write_mode (lines : list string) (keysToWrite : list (string * string))
  : list string :=
  let '(written, remaining) := write_scan lines keysToWrite in
  written ++ (key_value_line <$> remaining).

End WriteMode.

Module DeleteMode.

(** The inner loop: erases every line that has the key. *)
Fixpoint erase_key (key : string) (lines : list string) : list string :=
  match lines with
  | [] => []
  | line :: lines' =>
      match lineHasKey line key with
      | Some _ => erase_key key lines'
      | None => line :: erase_key key lines'
      end
  end.

(** The outer loop over the keys. *)
Fixpoint erase_keys (keys : list string) (lines : list string) : list string :=
  match keys with
  | [] => lines
  | key :: keys' => erase_keys keys' (erase_key key lines)
  end.

(** [keysToReadOrDelete.unique(...)], then the two loops. *)
Definition delete_mode (lines keys : list string) : list string :=
  erase_keys (unique (λ a b, bool_decide (a = b)) keys) lines.

End DeleteMode.

Import ReadMode WriteMode DeleteMode.

(** ** The command line and the file streams *)

Module Cli.

Inductive ModifyKeysMode := read | write | remove | undefined.

Global Instance ModifyKeysMode_eq_dec : EqDecision ModifyKeysMode.
Proof. solve_decision. Defined.

(** What [getopt(argc, argv, "hvf:wrd")] answers, call after call, until
    it answers [-1]; [opt_other] is any answer the [switch] sends to
    [default]. *)
Inductive getopt_result :=
| opt_h | opt_v | opt_f (optarg : string) | opt_w | opt_r | opt_d | opt_other.

Record options := Options {
  file_to_parse_name : string;
  verboseEnabled : bool;
  mode : ModifyKeysMode;
}.

(** [mode != ModifyKeysMode::undefined && mode != wanted] *)
Definition conflicts (m wanted : ModifyKeysMode) : bool :=
  bool_decide (m ≠ undefined) && bool_decide (m ≠ wanted).

Definition set_mode (o : options) (m : ModifyKeysMode) : options :=
  Options (file_to_parse_name o) (verboseEnabled o) m.

(** The [while ((opt = getopt(...)) != -1)] loop; [inl code] is a
    [return code] out of it.  [snprintf(.., 256, "%s", optarg)] keeps at
    most 255 characters. *)
Fixpoint getopt_loop (opts : list getopt_result) (o : options) : Z + options :=
  match opts with
  | [] => inr o
  | opt :: opts' =>
      match opt with
      | opt_h => inl 0%Z
      | opt_v => getopt_loop opts' (Options (file_to_parse_name o) true (mode o))
      | opt_f optarg =>
          getopt_loop opts' (Options (substr optarg 0 255) (verboseEnabled o) (mode o))
      | opt_w =>
          if conflicts (mode o) write then inl (-1)%Z
          else getopt_loop opts' (set_mode o write)
      | opt_r =>
          if conflicts (mode o) read then inl (-1)%Z
          else getopt_loop opts' (set_mode o read)
      | opt_d =>
          if conflicts (mode o) remove then inl (-1)%Z
          else getopt_loop opts' (set_mode o remove)
      | opt_other => getopt_loop opts' o
      end
  end.

(** The loop over [argv[optind .. argc)]; [None] is its [return -1].
    [emplace_back] appends at the end of the list. *)
Fixpoint read_arguments (m : ModifyKeysMode) (args : list string)
    (keysToReadOrDelete : list string) (keysToWrite : list (string * string))
  : option (list string * list (string * string)) :=
  match args with
  | [] => Some (keysToReadOrDelete, keysToWrite)
  | arg :: args' =>
      let eq_pos := find_first_of "=" arg in
      match m with
      | read | remove =>
          match eq_pos with
          | None =>
              read_arguments m args' (keysToReadOrDelete ++ [trim arg]) keysToWrite
          | Some _ => None
          end
      | write =>
          match eq_pos with
          | Some eq_pos =>
              if (0 <? eq_pos)%nat && (eq_pos <? String.length arg - 1)%nat then
                read_arguments m args' keysToReadOrDelete
                  (keysToWrite ++
                     [(trim (substr arg 0 eq_pos),
                       trim (substr arg (eq_pos + 1) (String.length arg)))])
              else None
          | None => None
          end
      | undefined => read_arguments m args' keysToReadOrDelete keysToWrite
      end
  end.

(** The predicate handed to [keysToWrite.unique]. *)
Definition same_key (a b : string * string) : bool := bool_decide (a.1 = b.1).

(** *** Files *)

Record file := File { bytes : string; readable : bool; writable : bool }.

Definition endl : string := String "010" "".

(** Repeated [std::getline(input_file, input_line)] until it fails: a
    line ends at a newline; a last line without newline is delivered
    when it is not empty. *)
Fixpoint getlines_from (input_line : string) (s : string) : list string :=
  match s with
  | "" => match input_line with "" => [] | _ => [input_line] end
  | String c s' =>
      if Ascii.eqb c "010" then input_line :: getlines_from "" s'
      else getlines_from (input_line ++ String c "") s'
  end.

Definition getlines (s : string) : list string := getlines_from "" s.

(** [output_file << line << std::endl], line after line. *)
Fixpoint putlines (lines : list string) : string :=
  match lines with
  | [] => ""
  | line :: lines' => line ++ endl ++ putlines lines'
  end.

(** [std::ifstream input_file(name)]: the bytes, when the stream is open. *)
Definition open_in (fs : gmap string file) (name : string) : option string :=
  match fs !! name with
  | Some f => if readable f then Some (bytes f) else None
  | None => None
  end.

(** [std::ofstream output_file(name)]: an open stream has truncated the
    file.  A missing file is created ([main] opens the path for reading
    first, and never gets there). *)
Definition open_out (fs : gmap string file) (name : string)
  : option (gmap string file) :=
  match fs !! name with
  | Some f =>
      if writable f then Some (<[name := File "" (readable f) true]> fs)
      else None
  | None => Some (<[name := File "" true true]> fs)
  end.

(** Writing [data] through the open stream. *)
Definition put (fs : gmap string file) (name data : string) : gmap string file :=
  match fs !! name with
  | Some f => <[name := File (bytes f ++ data) (readable f) (writable f)]> fs
  | None => fs
  end.

Inductive stream_event :=
| OpenIn (name : string) (is_open : bool)
| OpenOut (name : string) (is_open : bool).

(** What a run leaves behind: the value [main] returns, the lines on
    [std::cout], the files, and the streams it constructed, in order. *)
Record outcome := Outcome {
  returned : Z;
  cout : list string;
  files : gmap string file;
  streams : list stream_event;
}.

(** The exit status of the process: the low eight bits of what [main]
    returns. *)
Definition exit_status (o : outcome) : Z := (returned o mod 256)%Z.

(** [main], from the first line to the last; [opts] and [operands] are
    what [getopt] makes of [argv]. *)
Definition main (argc : nat) (opts : list getopt_result)
    (operands : list string) (fs : gmap string file) : outcome :=
  if (argc <? 2)%nat then Outcome 0 [] fs [] else
  match getopt_loop opts (Options "" false undefined) with
  | inl code => Outcome code [] fs []
  | inr o =>
      let name := file_to_parse_name o in
      if (String.length name =? 0)%nat then Outcome (-1) [] fs [] else
      if bool_decide (mode o = undefined) then Outcome (-1) [] fs [] else
      match read_arguments (mode o) operands [] [] with
      | None => Outcome (-1) [] fs []
      | Some (keysToReadOrDelete, keysToWrite) =>
          let keysToWrite := unique same_key keysToWrite in
          if bool_decide (keysToReadOrDelete = [])
             && bool_decide (keysToWrite = [])
             && bool_decide (keysToReadOrDelete = [])
          then Outcome (-1) [] fs [] else
          match open_in fs name with
          | None => Outcome 0 [] fs [OpenIn name false]
          | Some input =>
              match mode o with
              | read =>
                  Outcome 0 (read_mode (getlines input) keysToReadOrDelete) fs
                    [OpenIn name true]
              | undefined => Outcome 0 [] fs [OpenIn name true]
              | m =>
                  let all_file_lines := getlines input in
                  match open_out fs name with
                  | None =>
                      Outcome (-1) [] fs [OpenIn name true; OpenOut name false]
                  | Some fs' =>
                      let all_file_lines :=
                        if bool_decide (m = write)
                        then write_mode all_file_lines keysToWrite
                        else delete_mode all_file_lines keysToReadOrDelete in
                      Outcome 0 [] (put fs' name (putlines all_file_lines))
                        [OpenIn name true; OpenOut name true]
                  end
              end
          end
      end
  end.

End Cli.
Import Cli.

(** ** The vocabulary of the statements *)

(** The value the read loop records for a line that has the key at
    [eq_pos]. *)
Definition value_at (line : string) (eq_pos : nat) : string :=
  trim (substr line (eq_pos + 1) (String.length line)).

(** The read loop passes over the line for [key]: the line is a comment or
    has not the key. *)
Definition passed_over (key line : string) : Prop :=
  is_comment line = true ∨ lineHasKey line key = None.

(** The line the write loops make of the pair is found again under the
    key of the pair. *)
Definition self_matching (kv : string * string) : Prop :=
  is_Some (lineHasKey (key_value_line kv) kv.1).

(** The pairs have distinct keys, and each of them is [self_matching]. *)
Definition well_formed (keysToWrite : list (string * string)) : Prop :=
  NoDup keysToWrite.*1 ∧ Forall self_matching keysToWrite.

(** No pair of the list has its key on the line. *)
Definition untouched_by (keysToWrite : list (string * string)) (line : string)
  : Prop :=
  Forall (λ kv, lineHasKey line kv.1 = None) keysToWrite.

(** No key of the list is on the line. *)
Definition has_none_of (keys : list string) (line : string) : Prop :=
  Forall (λ key, lineHasKey line key = None) keys.

Global Instance untouched_by_dec keysToWrite line :
  Decision (untouched_by keysToWrite line).
Proof. unfold untouched_by. apply _. Defined.

Global Instance has_none_of_dec keys line : Decision (has_none_of keys line).
Proof. unfold has_none_of. apply _. Defined.

(** The pair [read_arguments] makes of a write-mode argument. *)
Definition parsed_pair (arg : string) (kv : string * string) : Prop :=
  ∃ eq_pos, find_first_of "=" arg = Some eq_pos
    ∧ kv = (trim (substr arg 0 eq_pos),
            trim (substr arg (eq_pos + 1) (String.length arg))).

(** The run gets as far as the streams: [main] has accepted the options
    and the positional arguments, [o] holds the options, and [keys] and
    [kw] are [keysToReadOrDelete] and [keysToWrite] as the argument loop
    leaves them. *)
Definition accepted (argc : nat) (opts : list getopt_result)
    (operands : list string) (o : options)
    (keys : list string) (kw : list (string * string)) : Prop :=
  (2 ≤ argc)%nat
  ∧ getopt_loop opts (Options "" false undefined) = inr o
  ∧ file_to_parse_name o ≠ ""
  ∧ mode o ≠ undefined
  ∧ read_arguments (mode o) operands [] [] = Some (keys, kw)
  ∧ ¬ (keys = [] ∧ unique same_key kw = []).

(** The string holds no newline. *)
Definition no_newline (s : string) : Prop := find_first_of "010" s = None.

(** The string is made of [\s] characters only. *)
Definition blank (s : string) : Prop :=
  Forall (λ c, is_space c = true) (list_ascii_of_string s).

(** The first and the last character of the string, if any, are no [\s]. *)
Definition tight (s : string) : Prop :=
  (∀ c, head (list_ascii_of_string s) = Some c → is_space c = false)
  ∧ (∀ c, last (list_ascii_of_string s) = Some c → is_space c = false).

(** The value of the first line, in file order, that is no comment and has
    the key. *)
Fixpoint first_match (lines : list string) (key : string) : option string :=
  match lines with
  | [] => None
  | line :: lines' =>
      if is_comment line then first_match lines' key
      else match lineHasKey line key with
           | Some eq_pos => Some (value_at line eq_pos)
           | None => first_match lines' key
           end
  end.

(** The line has the key. *)
Definition has_key (key line : string) : Prop := is_Some (lineHasKey line key).

Global Instance has_key_dec key line : Decision (has_key key line).
Proof. unfold has_key. apply _. Defined.

(** The mode an answer of [getopt] asks for. *)
Definition selects (opt : getopt_result) (m : ModifyKeysMode) : Prop :=
  match opt, m with
  | opt_w, write | opt_r, read | opt_d, remove => True
  | _, _ => False
  end.

(** A positional argument the argument loop accepts in mode [m]. *)
Definition well_shaped (m : ModifyKeysMode) (arg : string) : Prop :=
  match m with
  | read | remove => find_first_of "=" arg = None
  | write =>
      ∃ eq_pos, find_first_of "=" arg = Some eq_pos
        ∧ (0 < eq_pos)%nat ∧ (eq_pos < String.length arg - 1)%nat
  | undefined => True
  end.

(** A file system with the one file [conf], of the given lines. *)
Definition conf_of (lines : list string) : gmap string file :=
  {[ "conf" := File (putlines lines) true true ]}.

(** Closes [well_formed] for a write-set that is written out. *)
Ltac well_formed_by_computation :=
  split; [apply (bool_decide_unpack _); vm_compute; exact I
         | repeat constructor; by eexists].

(** ** Properties of the string helpers *)

Section Strings.
Implicit Types (s t : string) (c d : ascii).

Lemma length_app s t : String.length (s ++ t) = String.length s + String.length t.
Proof. induction s as [|c s IH]; simpl; [done|by rewrite IH]. Qed.

Lemma substr_app_prefix s t : substr (s ++ t) 0 (String.length s) = s.
Proof.
  unfold substr. induction s as [|c s IH]; simpl.
  - by destruct t.
  - by rewrite IH.
Qed.

Lemma find_first_of_lt c s eq_pos :
  find_first_of c s = Some eq_pos → eq_pos < String.length s.
Proof.
  revert eq_pos. induction s as [|d s IH]; intros eq_pos; simpl; [done|].
  destruct (Ascii.eqb d c).
  - intros [= <-]. lia.
  - destruct (find_first_of c s) as [p|]; simpl; [|done].
    intros [= <-]. specialize (IH p eq_refl). lia.
Qed.

Lemma find_first_of_app c s t :
  find_first_of c s = None →
  find_first_of c (s ++ String c t) = Some (String.length s).
Proof.
  induction s as [|d s IH]; simpl.
  - by rewrite Ascii.eqb_refl.
  - destruct (Ascii.eqb d c); [done|].
    destruct (find_first_of c s); [done|]. intros _. by rewrite IH.
Qed.

(** Nothing before the first [c] is a [c]. *)
Lemma find_first_of_substr c s eq_pos :
  find_first_of c s = Some eq_pos →
  find_first_of c (substr s 0 eq_pos) = None.
Proof.
  unfold substr. revert eq_pos.
  induction s as [|d s IH]; intros eq_pos; simpl; [done|].
  destruct (Ascii.eqb d c) eqn:Hd.
  - by intros [= <-].
  - destruct (find_first_of c s) as [p|]; simpl; [|done].
    intros [= <-]. simpl. by rewrite Hd, IH.
Qed.

Lemma find_first_of_ltrim c s :
  find_first_of c s = None → find_first_of c (ltrim s) = None.
Proof.
  induction s as [|d s IH]; simpl; [done|].
  destruct (Ascii.eqb d c) eqn:Hd; [done|].
  destruct (find_first_of c s) eqn:Hs; [done|]. intros _.
  destruct (is_space d); [by apply IH|]. simpl. by rewrite Hd, Hs.
Qed.

Lemma find_first_of_rtrim c s :
  find_first_of c s = None → find_first_of c (rtrim s) = None.
Proof.
  induction s as [|d s IH]; simpl; [done|].
  destruct (Ascii.eqb d c) eqn:Hd; [done|].
  destruct (find_first_of c s) eqn:Hs; [done|]. intros _.
  specialize (IH eq_refl).
  destruct (rtrim s) as [|e r] eqn:Hr.
  - destruct (is_space d); simpl; [done|]. by rewrite Hd.
  - simpl in *. by rewrite Hd, IH.
Qed.

Lemma find_first_of_trim c s :
  find_first_of c s = None → find_first_of c (trim s) = None.
Proof. intros. by apply find_first_of_ltrim, find_first_of_rtrim. Qed.

Lemma rtrim_rtrim s : rtrim (rtrim s) = rtrim s.
Proof.
  induction s as [|c s IH]; simpl; [done|].
  destruct (rtrim s) as [|e r] eqn:Hr.
  - destruct (is_space c) eqn:Hc; simpl; [done|]. by rewrite Hc.
  - cbn [rtrim]. fold rtrim. cbn [rtrim] in IH. by rewrite IH.
Qed.

Lemma ltrim_ltrim s : ltrim (ltrim s) = ltrim s.
Proof.
  induction s as [|c s IH]; simpl; [done|].
  destruct (is_space c) eqn:Hc; [done|]. simpl. by rewrite Hc.
Qed.

(** [ltrim] takes nothing from the end of the string. *)
Lemma rtrim_ltrim s : rtrim s = s → rtrim (ltrim s) = ltrim s.
Proof.
  induction s as [|c s IH]; [done|]. intros Hs. cbn [ltrim].
  destruct (is_space c) eqn:Hc; [|done].
  apply IH. cbn [rtrim] in Hs. rewrite Hc in Hs.
  destruct (rtrim s) as [|e r]; [done|]. by injection Hs.
Qed.

Lemma trim_trim s : trim (trim s) = trim s.
Proof.
  unfold trim. rewrite (rtrim_ltrim (rtrim s)) by apply rtrim_rtrim.
  apply ltrim_ltrim.
Qed.

Lemma append_cons c s t : String c s ++ t = String c (s ++ t).
Proof. reflexivity. Qed.

Lemma append_nil_r s : s ++ "" = s.
Proof. induction s as [|c s IH]; [done|]. by rewrite append_cons, IH. Qed.

Lemma append_assoc s t u : (s ++ t) ++ u = s ++ t ++ u.
Proof. induction s as [|c s IH]; [done|]. by rewrite !append_cons, IH. Qed.

Lemma find_first_of_app_None c s t :
  find_first_of c s = None → find_first_of c t = None →
  find_first_of c (s ++ t) = None.
Proof.
  intros Hs Ht. induction s as [|d s IH]; [done|].
  rewrite append_cons. cbn in *.
  destruct (Ascii.eqb d c); [done|].
  destruct (find_first_of c s); [done|]. by rewrite IH.
Qed.

(** A string that starts with a character that is not a [\s] keeps it. *)
Lemma trim_first c s :
  is_space c = false → ∃ t, trim (String c s) = String c t.
Proof.
  intros Hc. unfold trim. simpl.
  destruct (rtrim s) as [|e r]; rewrite ?Hc; simpl; rewrite Hc; eauto.
Qed.

End Strings.

(** ** Properties of [lineHasKey] *)

Section LineHasKey.

(** What an answer other than [npos] says about the line. *)
Lemma lineHasKey_Some line key eq_pos :
  lineHasKey line key = Some eq_pos ↔
  find_first_of "=" line = Some eq_pos ∧ 0 < eq_pos
  ∧ eq_pos < String.length line - 1
  ∧ trim (substr line 0 eq_pos) = key.
Proof.
  unfold lineHasKey.
  destruct (find_first_of "=" line) as [p|]; [|by split; [|intros [? _]]].
  split.
  - destruct (0 <? p)%nat eqn:H0, (p <? String.length line - 1)%nat eqn:H1;
      simpl; try done.
    case_bool_decide; [|done]. intros [= <-].
    apply Nat.ltb_lt in H0, H1. done.
  - intros (Hf & H0 & H1 & Ht). injection Hf as ->.
    apply Nat.ltb_lt in H0, H1. rewrite H0, H1. simpl.
    by rewrite bool_decide_eq_true_2.
Qed.

(** A line has at most one key. *)
Lemma lineHasKey_inj line key1 key2 p1 p2 :
  lineHasKey line key1 = Some p1 → lineHasKey line key2 = Some p2 →
  key1 = key2.
Proof.
  rewrite !lineHasKey_Some. intros (Hf1 & _ & _ & <-) (Hf2 & _ & _ & <-).
  congruence.
Qed.

Lemma lineHasKey_other line key1 key2 p :
  lineHasKey line key1 = Some p → key1 ≠ key2 → lineHasKey line key2 = None.
Proof.
  intros H1 Hne. destruct (lineHasKey line key2) as [p2|] eqn:H2; [|done].
  destruct Hne. by eapply lineHasKey_inj.
Qed.

End LineHasKey.

(** ** Read mode *)

Section Read.
Implicit Types (m : gmap string string) (keys lines : list string).

Lemma emit_lookup keys m :
  emit keys m = (λ key, default "" (m !! key)) <$> keys.
Proof.
  revert m. induction keys as [|key keys IH]; intros m; simpl; [done|].
  unfold index. destruct (m !! key) as [v|] eqn:Hm; simpl.
  - by rewrite IH.
  - rewrite IH. f_equal. apply list_fmap_ext. intros _ key' _.
    destruct (decide (key = key')) as [<-|Hne].
    + by rewrite lookup_insert_eq, Hm.
    + by rewrite lookup_insert_ne.
Qed.

Lemma emplace_lookup key v m key' :
  emplace key v m !! key' =
  match m !! key' with
  | Some v' => Some v'
  | None => if decide (key = key') then Some v else None
  end.
Proof.
  unfold emplace. destruct (m !! key) as [w|] eqn:Hm.
  - destruct (m !! key') eqn:Hm'; [done|]. case_decide; congruence.
  - destruct (decide (key = key')) as [<-|Hne].
    + by rewrite lookup_insert_eq, Hm.
    + rewrite lookup_insert_ne by done. by destruct (m !! key').
Qed.

(** [emplace] never overwrites: what is recorded stays. *)
Lemma read_line_recorded line keys m key v :
  m !! key = Some v → read_line line keys m !! key = Some v.
Proof.
  revert m. induction keys as [|k keys IH]; intros m Hm; simpl; [done|].
  destruct (lineHasKey line k); apply IH; [|done].
  by rewrite emplace_lookup, Hm.
Qed.

Lemma read_line_match line keys m key eq_pos :
  m !! key = None → key ∈ keys → lineHasKey line key = Some eq_pos →
  read_line line keys m !! key = Some (value_at line eq_pos).
Proof.
  revert m. induction keys as [|k keys IH]; intros m Hm Hin Hl; simpl.
  - by apply elem_of_nil in Hin.
  - destruct (decide (k = key)) as [->|Hne].
    + rewrite Hl. apply read_line_recorded.
      rewrite emplace_lookup, Hm. by rewrite decide_True.
    + apply elem_of_cons in Hin as [->|Hin]; [done|].
      destruct (lineHasKey line k); apply IH; try done.
      rewrite emplace_lookup, Hm. by rewrite decide_False.
Qed.

Lemma read_line_no_match line keys m key :
  m !! key = None → lineHasKey line key = None →
  read_line line keys m !! key = None.
Proof.
  revert m. induction keys as [|k keys IH]; intros m Hm Hl; simpl; [done|].
  destruct (lineHasKey line k) eqn:Hk; apply IH; try done.
  rewrite emplace_lookup, Hm. rewrite decide_False; [done|]. congruence.
Qed.

Lemma read_scan_recorded lines keys m key v :
  m !! key = Some v → read_scan lines keys m !! key = Some v.
Proof.
  revert m. induction lines as [|line lines IH]; intros m Hm; simpl; [done|].
  destruct (is_comment line); apply IH; [done|].
  by apply read_line_recorded.
Qed.

Lemma read_scan_no_match lines keys m key :
  m !! key = None → Forall (passed_over key) lines →
  read_scan lines keys m !! key = None.
Proof.
  revert m. induction lines as [|line lines IH]; intros m Hm Hall; simpl; [done|].
  apply Forall_cons in Hall as [Hline Hall].
  destruct (is_comment line) eqn:Hc; [by apply IH|].
  destruct Hline as [?|Hline]; [congruence|].
  apply IH; [|done]. by apply read_line_no_match.
Qed.

Lemma read_scan_first_match before line after keys m key eq_pos :
  m !! key = None → key ∈ keys →
  Forall (passed_over key) before →
  is_comment line = false → lineHasKey line key = Some eq_pos →
  read_scan (before ++ line :: after) keys m !! key
  = Some (value_at line eq_pos).
Proof.
  revert m. induction before as [|l before IH]; intros m Hm Hin Hall Hc Hl; simpl.
  - rewrite Hc. apply read_scan_recorded. by apply read_line_match.
  - apply Forall_cons in Hall as [Hpass Hall].
    destruct (is_comment l) eqn:Hcl; [by apply IH|].
    destruct Hpass as [?|Hpass]; [congruence|].
    apply IH; try done. by apply read_line_no_match.
Qed.

Lemma read_mode_lookup lines keys n key :
  keys !! n = Some key →
  read_mode lines keys !! n = Some (default "" (read_scan lines keys ∅ !! key)).
Proof.
  intros Hn. unfold read_mode. rewrite emit_lookup, list_lookup_fmap, Hn. done.
Qed.

End Read.

(** ** Write mode *)

Section Write.
Implicit Types (line : string) (lines : list string).
Implicit Types (kv : string * string) (pending : list (string * string)).

Lemma Forall_sublist {A} (P : A → Prop) (l1 l2 : list A) :
  sublist l1 l2 → Forall P l2 → Forall P l1.
Proof.
  intros Hsub. rewrite !Forall_forall. intros Hall x Hin.
  apply Hall. by eapply sublist_subseteq.
Qed.

Lemma well_formed_cons kv pending :
  well_formed (kv :: pending) →
  self_matching kv ∧ well_formed pending ∧ kv.1 ∉ pending.*1.
Proof.
  intros [Hnd Hall]. rewrite fmap_cons in Hnd.
  apply NoDup_cons in Hnd as [Hnotin Hnd].
  apply Forall_cons in Hall as [Hkv Hall]. done.
Qed.

(** The line of a pair has none of the other keys of a well-formed list. *)
Lemma well_formed_other kv kv' pending key :
  well_formed pending → kv' ∈ pending → key ∉ pending.*1 →
  lineHasKey (key_value_line kv') key = None.
Proof.
  intros [_ Hall] Hin Hnotin. rewrite Forall_forall in Hall.
  destruct (Hall _ Hin) as [p Hp].
  eapply lineHasKey_other; [done|]. intros Heq. apply Hnotin.
  rewrite <- Heq. by apply list_elem_of_fmap_2.
Qed.

Lemma well_formed_untouched kv pending :
  well_formed (kv :: pending) → untouched_by pending (key_value_line kv).
Proof.
  intros Hwf. pose proof Hwf as [Hnd _]. rewrite fmap_cons in Hnd.
  apply NoDup_cons in Hnd as [Hnotin Hnd].
  apply well_formed_cons in Hwf as ([p Hp] & Hwf & _).
  apply Forall_forall. intros kv' Hin.
  eapply lineHasKey_other; [done|]. intros Heq. apply Hnotin.
  rewrite Heq. by apply list_elem_of_fmap_2.
Qed.

Lemma well_formed_sublist pending pending' :
  sublist pending' pending → well_formed pending → well_formed pending'.
Proof.
  intros Hsub [Hnd Hall]. split.
  - eapply sublist_NoDup; [done|]. by apply fmap_sublist.
  - by eapply Forall_sublist.
Qed.

Lemma write_line_untouched line pending :
  untouched_by pending line → write_line line pending = (line, pending).
Proof.
  induction pending as [|kv pending IH]; intros Hall; simpl; [done|].
  apply Forall_cons in Hall as [-> Hall]. by rewrite IH.
Qed.

(** The line after the inner loop is the line before it or the line of
    one of the pairs; no pair is added to the list. *)
Lemma write_line_inv line pending line' pending' :
  write_line line pending = (line', pending') →
  (line' = line ∨ ∃ kv, kv ∈ pending ∧ line' = key_value_line kv)
  ∧ sublist pending' pending.
Proof.
  revert line line' pending'.
  induction pending as [|kv pending IH]; intros line line' pending'; simpl.
  - intros [= <- <-]. split; [by left|done].
  - destruct (lineHasKey line kv.1).
    + intros H. apply IH in H as [[->|(kv' & Hin & ->)] Hsub].
      * split; [|by apply sublist_cons]. right. exists kv. split; [left|done].
      * split; [|by apply sublist_cons]. right. exists kv'. split; [by right|done].
    + destruct (write_line line pending) as [l r] eqn:Hw.
      intros [= <- <-]. apply IH in Hw as [[->|(kv' & Hin & ->)] Hsub].
      * split; [by left|by apply sublist_skip].
      * split; [|by apply sublist_skip]. right. exists kv'. split; [by right|done].
Qed.

(** Running the inner loop again, on its own result and with the list
    it started from, changes nothing. *)
Lemma write_line_again line pending line' pending' :
  well_formed pending →
  write_line line pending = (line', pending') →
  write_line line' pending = (line', pending').
Proof.
  revert line line' pending'.
  induction pending as [|kv pending IH]; intros line line' pending' Hwf; simpl.
  - by intros [= <- <-].
  - pose proof (well_formed_untouched _ _ Hwf) as Hrest.
    apply well_formed_cons in Hwf as ([p Hself] & Hwf & Hnotin).
    destruct (lineHasKey line kv.1) eqn:Hl.
    + rewrite write_line_untouched by done. intros [= <- <-].
      by rewrite Hself.
    + destruct (write_line line pending) as [l r] eqn:Hw. intros [= <- <-].
      pose proof (IH _ _ _ Hwf Hw) as Hagain.
      apply write_line_inv in Hw as [[->|(kv' & Hin & ->)] _].
      * by rewrite Hl, Hagain.
      * rewrite (well_formed_other kv kv' pending) by done.
        by rewrite Hagain.
Qed.

Lemma write_scan_app lines1 lines2 pending :
  write_scan (lines1 ++ lines2) pending =
  let '(written1, pending1) := write_scan lines1 pending in
  let '(written2, pending2) := write_scan lines2 pending1 in
  ((written1 ++ written2)%list, pending2).
Proof.
  revert pending. induction lines1 as [|line lines1 IH]; intros pending; simpl.
  - by destruct (write_scan lines2 pending).
  - destruct (write_line line pending) as [line' pending'].
    rewrite IH. destruct (write_scan lines1 pending') as [w1 p1].
    by destruct (write_scan lines2 p1).
Qed.

Lemma write_scan_inv lines pending written remaining :
  write_scan lines pending = (written, remaining) →
  length written = length lines ∧ sublist remaining pending.
Proof.
  revert pending written remaining.
  induction lines as [|line lines IH]; intros pending written remaining; simpl.
  - by intros [= <- <-].
  - destruct (write_line line pending) as [line' pending'] eqn:Hl.
    destruct (write_scan lines pending') as [w r] eqn:Hs. intros [= <- <-].
    apply IH in Hs as [Hlen Hsub]. apply write_line_inv in Hl as [_ Hsub'].
    split; [simpl; by rewrite Hlen | by etrans].
Qed.

(** Scanning the written lines again, with the list the scan started
    from, rewrites every line as it is and leaves the same pairs. *)
Lemma write_scan_again lines pending written remaining :
  well_formed pending →
  write_scan lines pending = (written, remaining) →
  write_scan written pending = (written, remaining).
Proof.
  revert pending written remaining.
  induction lines as [|line lines IH]; intros pending written remaining Hwf; simpl.
  - by intros [= <- <-].
  - destruct (write_line line pending) as [line' pending'] eqn:Hl.
    destruct (write_scan lines pending') as [w r] eqn:Hs. intros [= <- <-].
    simpl. rewrite (write_line_again _ _ _ _ Hwf Hl).
    apply write_line_inv in Hl as [_ Hsub].
    by rewrite (IH _ _ _ (well_formed_sublist _ _ Hsub Hwf) Hs).
Qed.

(** Scanning the appended lines with the pairs they were made from uses
    up every pair and rewrites every line as it is. *)
Lemma write_scan_appended pending :
  well_formed pending →
  write_scan (key_value_line <$> pending) pending
  = (key_value_line <$> pending, []).
Proof.
  induction pending as [|kv pending IH]; intros Hwf; [done|].
  pose proof (well_formed_untouched _ _ Hwf) as Hrest.
  apply well_formed_cons in Hwf as ([p Hself] & Hwf & _).
  rewrite fmap_cons. cbn [write_scan write_line]. rewrite Hself.
  rewrite write_line_untouched by done. by rewrite IH.
Qed.

(** Scanning the result of [write_mode] with the same pairs uses up every
    pair and rewrites every line as it is. *)
Lemma write_scan_twice lines keysToWrite :
  well_formed keysToWrite →
  write_scan (write_mode lines keysToWrite) keysToWrite
  = (write_mode lines keysToWrite, []).
Proof.
  intros Hwf. unfold write_mode.
  destruct (write_scan lines keysToWrite) as [written remaining] eqn:Hs.
  rewrite write_scan_app, (write_scan_again _ _ _ _ Hwf Hs).
  apply write_scan_inv in Hs as [_ Hsub].
  by rewrite write_scan_appended by by eapply well_formed_sublist.
Qed.

(** A line that has none of the pending keys goes through the inner
    loop as it is. *)
Lemma write_line_pass line pending line' pending' :
  untouched_by pending line →
  write_line line pending = (line', pending') → line' = line.
Proof. intros Hun. rewrite write_line_untouched by done. by intros [= <- _]. Qed.

Lemma untouched_by_sublist pending pending' line :
  sublist pending' pending → untouched_by pending line →
  untouched_by pending' line.
Proof. apply Forall_sublist. Qed.

Lemma write_scan_pass_lookup lines keysToWrite pending written remaining i line :
  sublist pending keysToWrite →
  write_scan lines pending = (written, remaining) →
  lines !! i = Some line → untouched_by keysToWrite line →
  written !! i = Some line.
Proof.
  revert pending written remaining i.
  induction lines as [|l lines IH]; intros pending written remaining i Hsub; simpl.
  - intros _ Hi. by rewrite lookup_nil in Hi.
  - destruct (write_line l pending) as [l' pending'] eqn:Hl.
    destruct (write_scan lines pending') as [w r] eqn:Hs. intros [= <- <-].
    destruct i as [|i]; simpl.
    + intros [= ->] Hun. f_equal. eapply write_line_pass; [|done].
      by eapply untouched_by_sublist.
    + intros Hi Hun. eapply IH; [|done..].
      apply write_line_inv in Hl as [_ Hsub']. by etrans.
Qed.

Lemma write_scan_pass_sublist lines keysToWrite pending written remaining :
  sublist pending keysToWrite →
  write_scan lines pending = (written, remaining) →
  sublist (filter (untouched_by keysToWrite) lines) written.
Proof.
  revert pending written remaining.
  induction lines as [|l lines IH]; intros pending written remaining Hsub; simpl.
  - by intros [= <- <-].
  - destruct (write_line l pending) as [l' pending'] eqn:Hl.
    destruct (write_scan lines pending') as [w r] eqn:Hs. intros [= <- <-].
    assert (sublist (filter (untouched_by keysToWrite) lines) w) as Hrec.
    { eapply IH; [|done]. apply write_line_inv in Hl as [_ Hsub']. by etrans. }
    rewrite filter_cons. case_decide as Hun.
    + apply write_line_pass in Hl as ->; [by apply sublist_skip|].
      by eapply untouched_by_sublist.
    + by apply sublist_cons.
Qed.

End Write.

(** ** Delete mode *)

Section Delete.
Implicit Types (line key : string) (lines keys : list string).

Lemma erase_key_filter key lines :
  erase_key key lines = filter (λ line, lineHasKey line key = None) lines.
Proof.
  induction lines as [|line lines IH]; simpl; [done|].
  rewrite filter_cons. destruct (lineHasKey line key) eqn:Hl.
  - by rewrite decide_False.
  - rewrite decide_True by done. by rewrite IH.
Qed.

Lemma erase_keys_filter keys lines :
  erase_keys keys lines = filter (has_none_of keys) lines.
Proof.
  revert lines. induction keys as [|key keys IH]; intros lines; simpl.
  - symmetry. induction lines as [|line lines IHl]; [done|].
    rewrite filter_cons_True by constructor. by rewrite IHl.
  - rewrite IH, erase_key_filter, list_filter_filter.
    apply list_filter_iff. intros line. unfold has_none_of.
    rewrite Forall_cons. tauto.
Qed.

(** [unique] with equality keeps every element at least once. *)
Lemma elem_of_unique_from (first x : string) (l : list string) :
  x ∈ first :: unique_from (λ a b, bool_decide (a = b)) first l
  ↔ x ∈ first :: l.
Proof.
  revert first. induction l as [|y l IH]; intros first; simpl; [done|].
  case_bool_decide as Heq.
  - subst y. rewrite IH, !elem_of_cons. tauto.
  - rewrite !(elem_of_cons _ x first), IH. done.
Qed.

Lemma elem_of_unique (x : string) (l : list string) :
  x ∈ unique (λ a b, bool_decide (a = b)) l ↔ x ∈ l.
Proof. destruct l as [|first l]; [done|]. apply elem_of_unique_from. Qed.

Lemma delete_mode_filter lines keys :
  delete_mode lines keys = filter (has_none_of keys) lines.
Proof.
  unfold delete_mode. rewrite erase_keys_filter.
  apply list_filter_iff. intros line. unfold has_none_of.
  rewrite !Forall_forall. setoid_rewrite elem_of_unique. done.
Qed.

Lemma filter_complement_length {A} (P : A → Prop) `{!∀ x, Decision (P x)}
    (l : list A) :
  length (filter P l) + length (filter (λ x, ¬ P x) l) = length l.
Proof.
  induction l as [|x l IH]; [done|].
  rewrite !filter_cons. destruct (decide (P x)).
  - rewrite decide_False by tauto. simpl. lia.
  - rewrite decide_True by done. simpl. lia.
Qed.

End Delete.

(** ** The positional arguments *)

Section Arguments.
Implicit Types (arg : string) (args keys : list string).
Implicit Types (kv : string * string) (kw : list (string * string)).

Lemma read_arguments_keys m args acc kw keys kw' :
  m = read ∨ m = remove →
  read_arguments m args acc kw = Some (keys, kw') →
  keys = (acc ++ (trim <$> args))%list ∧ kw' = kw.
Proof.
  intros Hm. revert acc.
  induction args as [|arg args IH]; intros acc; simpl.
  - destruct Hm as [-> | ->]; intros [= <- <-]; by rewrite app_nil_r.
  - destruct Hm as [-> | ->]; destruct (find_first_of "=" arg); try done;
      intros H; apply IH in H as [-> ->]; by rewrite <- app_assoc.
Qed.

Lemma read_arguments_pairs args acc kw keys kw' :
  read_arguments write args acc kw = Some (keys, kw') →
  keys = acc ∧ ∃ parsed, kw' = (kw ++ parsed)%list ∧ Forall2 parsed_pair args parsed.
Proof.
  revert kw. induction args as [|arg args IH]; intros kw; simpl.
  - intros [= <- <-]. split; [done|]. exists []. by rewrite app_nil_r.
  - destruct (find_first_of "=" arg) as [eq_pos|] eqn:Hf; [|done].
    destruct ((0 <? eq_pos)%nat && (eq_pos <? String.length arg - 1)%nat); [|done].
    intros H. apply IH in H as [-> (parsed & -> & Hall)]. split; [done|].
    eexists (_ :: parsed). rewrite <- app_assoc. split; [done|].
    constructor; [|done]. by exists eq_pos.
Qed.

(** The key of a parsed pair is trimmed and holds no [=]. *)
Lemma parsed_pair_key arg kv :
  parsed_pair arg kv → trim kv.1 = kv.1 ∧ find_first_of "=" kv.1 = None.
Proof.
  intros (eq_pos & Hf & ->). simpl. split; [apply trim_trim|].
  by apply find_first_of_trim, find_first_of_substr.
Qed.

Lemma self_matching_intro kv :
  trim kv.1 = kv.1 → find_first_of "=" kv.1 = None →
  kv.1 ≠ "" → kv.2 ≠ "" → self_matching kv.
Proof.
  destruct kv as [k v]. simpl. intros Htrim Hfind Hk Hv.
  exists (String.length k). apply lineHasKey_Some. unfold key_value_line. simpl.
  split_and!.
  - by apply find_first_of_app.
  - destruct k; [done|simpl; lia].
  - rewrite length_app. simpl. destruct v; [done|simpl; lia].
  - by rewrite substr_app_prefix.
Qed.

Lemma unique_from_sublist {A} (pred : A → A → bool) first (l : list A) :
  sublist (unique_from pred first l) l.
Proof.
  revert first. induction l as [|x l IH]; intros first; simpl; [done|].
  destruct (pred first x); [by apply sublist_cons|by apply sublist_skip].
Qed.

Lemma unique_sublist {A} (pred : A → A → bool) (l : list A) :
  sublist (unique pred l) l.
Proof.
  destruct l as [|first l]; [done|]. apply sublist_skip, unique_from_sublist.
Qed.

(** Of two consecutive pairs with one key, [unique] drops the second. *)
Lemma unique_same_key_adjacent kv kv' kw :
  kv.1 = kv'.1 →
  unique same_key (kv :: kv' :: kw) = unique same_key (kv :: kw).
Proof.
  intros Heq. simpl. unfold same_key at 1. by rewrite bool_decide_eq_true_2.
Qed.

(** What [main] hands to the write loops is well formed as soon as its
    keys are distinct and no key and no value is empty. *)
Lemma parsed_well_formed args keys kw :
  read_arguments write args [] [] = Some (keys, kw) →
  NoDup (unique same_key kw).*1 →
  Forall (λ kv, kv.1 ≠ "" ∧ kv.2 ≠ "") (unique same_key kw) →
  well_formed (unique same_key kw).
Proof.
  intros Hargs Hnd Hne. split; [done|].
  apply read_arguments_pairs in Hargs as [_ (parsed & -> & Hall)].
  rewrite app_nil_l in *.
  assert (Forall (λ kv, trim kv.1 = kv.1 ∧ find_first_of "=" kv.1 = None)
            (unique same_key parsed)) as Hkeys.
  { eapply Forall_sublist; [apply unique_sublist|].
    clear Hnd Hne.
    induction Hall as [|arg kv args parsed Hp _ IH]; constructor; [|done].
    by eapply parsed_pair_key. }
  rewrite Forall_forall in Hkeys, Hne. apply Forall_forall. intros kv Hin.
  destruct (Hkeys _ Hin), (Hne _ Hin). by apply self_matching_intro.
Qed.

End Arguments.

(** ** [main] *)

Section Main.

Lemma main_accepted argc opts operands fs o keys kw :
  accepted argc opts operands o keys kw →
  main argc opts operands fs =
  let name := file_to_parse_name o in
  match open_in fs name with
  | None => Outcome 0 [] fs [OpenIn name false]
  | Some input =>
      match mode o with
      | read => Outcome 0 (read_mode (getlines input) keys) fs [OpenIn name true]
      | undefined => Outcome 0 [] fs [OpenIn name true]
      | m =>
          match open_out fs name with
          | None => Outcome (-1) [] fs [OpenIn name true; OpenOut name false]
          | Some fs' =>
              Outcome 0 []
                (put fs' name
                   (putlines
                      (if bool_decide (m = write)
                       then write_mode (getlines input) (unique same_key kw)
                       else delete_mode (getlines input) keys)))
                [OpenIn name true; OpenOut name true]
          end
      end
  end.
Proof.
  intros (Hargc & Hopts & Hname & Hmode & Hargs & Hempty). unfold main.
  destruct (Nat.ltb_spec argc 2) as [?|_]; [lia|]. rewrite Hopts.
  destruct (Nat.eqb_spec (String.length (file_to_parse_name o)) 0) as [Hlen|_].
  { by destruct (file_to_parse_name o). }
  rewrite bool_decide_eq_false_2 by done. rewrite Hargs.
  destruct (bool_decide (keys = [])) eqn:Hk; simpl; [|done].
  destruct (bool_decide (unique same_key kw = [])) eqn:Hw; simpl; [|done].
  apply bool_decide_eq_true_1 in Hk, Hw. tauto.
Qed.

(** Whatever the command line, a run ends in one of these ways. *)
Lemma main_cases argc opts operands fs :
  (main argc opts operands fs = Outcome 0 [] fs []
   ∨ main argc opts operands fs = Outcome (-1) [] fs [])
  ∨ ∃ o keys kw, accepted argc opts operands o keys kw.
Proof.
  unfold main, accepted.
  destruct (Nat.ltb_spec argc 2) as [?|Hargc]; [by left; left|].
  destruct (getopt_loop opts _) as [code|o] eqn:Hopts.
  { left. clear Hargc. revert Hopts. generalize (Options "" false undefined).
    induction opts as [|opt opts IH]; intros o; simpl; [done|].
    destruct opt; try apply IH; try (intros [= <-]; by left);
      (destruct (conflicts _ _); [intros [= <-]; by right|apply IH]). }
  destruct (Nat.eqb_spec (String.length (file_to_parse_name o)) 0) as [|Hlen];
    [by left; right|].
  case_bool_decide as Hmode; [by left; right|].
  destruct (read_arguments _ _ _ _) as [[keys kw]|] eqn:Hargs; [|by left; right].
  destruct (bool_decide (keys = [])) eqn:Hk; simpl.
  - destruct (bool_decide (unique same_key kw = [])) eqn:Hw; simpl.
    + by left; right.
    + right. exists o, keys, kw. split_and!; try done.
      * intros Hn. by rewrite Hn in Hlen.
      * apply bool_decide_eq_false_1 in Hw. tauto.
  - right. exists o, keys, kw. split_and!; try done.
    + intros Hn. by rewrite Hn in Hlen.
    + apply bool_decide_eq_false_1 in Hk. tauto.
Qed.

End Main.

(** ** Writing the lines out and reading them back *)

Section RoundTrip.
Implicit Types (s t line : string) (lines : list string).

Lemma getlines_from_line input_line line rest :
  no_newline line →
  getlines_from input_line (line ++ endl ++ rest)
  = (input_line ++ line) :: getlines_from "" rest.
Proof.
  unfold no_newline. revert input_line.
  induction line as [|c line IH]; intros input_line.
  - intros _. by rewrite append_nil_r.
  - rewrite append_cons. cbn.
    destruct (Ascii.eqb c "010"); [done|].
    destruct (find_first_of "010" line); [done|]. intros _.
    rewrite IH by done. by rewrite append_assoc.
Qed.

Lemma getlines_putlines lines :
  Forall no_newline lines → getlines (putlines lines) = lines.
Proof.
  induction 1 as [|line lines Hline _ IH]; [done|].
  unfold getlines in *. cbn [putlines].
  rewrite getlines_from_line by done. by rewrite IH.
Qed.

Lemma getlines_from_no_newline input_line s :
  no_newline input_line → Forall no_newline (getlines_from input_line s).
Proof.
  revert input_line. induction s as [|c s IH]; intros input_line Hin; cbn.
  - destruct input_line; by repeat constructor.
  - destruct (Ascii.eqb c "010") eqn:Hc.
    + constructor; [done|]. by apply IH.
    + apply IH. apply find_first_of_app_None; [done|]. cbn. by rewrite Hc.
Qed.

Lemma key_value_line_no_newline kv :
  no_newline kv.1 → no_newline kv.2 → no_newline (key_value_line kv).
Proof.
  intros Hk Hv. unfold key_value_line.
  apply find_first_of_app_None; [done|].
  change ("=" ++ kv.2) with (String "=" kv.2). cbn.
  unfold no_newline in Hv. by rewrite Hv.
Qed.

Lemma write_scan_no_newline lines pending written remaining :
  Forall no_newline lines →
  Forall (λ kv, no_newline (key_value_line kv)) pending →
  write_scan lines pending = (written, remaining) →
  Forall no_newline written.
Proof.
  intros Hlines. revert pending written remaining.
  induction Hlines as [|line lines Hline _ IH];
    intros pending written remaining Hpending; simpl.
  - by intros [= <- <-].
  - destruct (write_line line pending) as [line' pending'] eqn:Hl.
    destruct (write_scan lines pending') as [w r] eqn:Hs. intros [= <- <-].
    apply write_line_inv in Hl as [Hline' Hsub]. constructor.
    + destruct Hline' as [->|(kv & Hin & ->)]; [done|].
      rewrite Forall_forall in Hpending. by apply Hpending.
    + eapply IH; [|done]. by eapply Forall_sublist.
Qed.

Lemma write_mode_no_newline lines keysToWrite :
  Forall no_newline lines →
  Forall (λ kv, no_newline (key_value_line kv)) keysToWrite →
  Forall no_newline (write_mode lines keysToWrite).
Proof.
  intros Hlines Hkw. unfold write_mode.
  destruct (write_scan lines keysToWrite) as [written remaining] eqn:Hs.
  apply Forall_app. split; [by eapply write_scan_no_newline|].
  apply Forall_fmap. eapply Forall_sublist; [|done].
  by apply write_scan_inv in Hs as [_ ?].
Qed.

(** The files after a run that has opened both streams. *)
Lemma put_open_out fs fs' name input data :
  open_in fs name = Some input → open_out fs name = Some fs' →
  put fs' name data = <[name := File data true true]> fs.
Proof.
  unfold open_in, open_out, put. destruct (fs !! name) as [f|]; [|done].
  destruct (readable f); [|done]. destruct (writable f); [|done].
  intros _ [= <-]. rewrite lookup_insert_eq. cbn [bytes readable writable].
  by rewrite insert_insert_eq.
Qed.

End RoundTrip.

(** ** The properties of the program *)

(** *** Read mode *)

Lemma read_mode_missing lines keys n key :
  keys !! n = Some key → Forall (passed_over key) lines →
  read_mode lines keys !! n = Some "".
Proof.
  intros Hn Hall. rewrite (read_mode_lookup _ _ _ _ Hn).
  by rewrite read_scan_no_match.
Qed.

Lemma read_mode_length lines keys : length (read_mode lines keys) = length keys.
Proof. unfold read_mode. by rewrite emit_lookup, length_fmap. Qed.

(** C1, as stated, fails: with the key on two lines, the value of the
    later line is not the one that is printed. *)
Lemma read_last_match_does_not_win :
  ¬ (∀ lines keys n key i j line0 line eq_pos,
       keys !! n = Some key →
       (i < j)%nat → lines !! i = Some line0 →
       is_comment line0 = false → is_Some (lineHasKey line0 key) →
       lines !! j = Some line →
       is_comment line = false → lineHasKey line key = Some eq_pos →
       (∀ j' line', (j < j')%nat → lines !! j' = Some line' → passed_over key line') →
       read_mode lines keys !! n = Some (value_at line eq_pos)).
Proof.
  intros H.
  specialize (H ["a=1"; "a=2"] ["a"] 0 "a" 0 1 "a=1" "a=2" 1).
  assert (read_mode ["a=1"; "a=2"] ["a"] !! 0 = Some (value_at "a=2" 1)) as Hlast.
  { apply H; try reflexivity.
    - lia.
    - by eexists.
    - intros [|[|j']] line' Hlt Hj; try lia. done. }
  vm_compute in Hlast. discriminate.
Qed.

(** C1, as amended: in read mode the value printed for a requested key is
    the one of the first line, in file order, that is not a comment and
    has the key; no later line changes it. *)
Theorem read_first_match_wins lines keys n key i line eq_pos :
  keys !! n = Some key →
  lines !! i = Some line →
  is_comment line = false → lineHasKey line key = Some eq_pos →
  (∀ j line', (j < i)%nat → lines !! j = Some line' → passed_over key line') →
  read_mode lines keys !! n = Some (value_at line eq_pos).
Proof.
  intros Hn Hi Hc Hl Hbefore. rewrite (read_mode_lookup _ _ _ _ Hn).
  rewrite <- (take_drop_middle lines i line Hi).
  rewrite (read_scan_first_match _ _ _ _ _ _ eq_pos); try done.
  - by eapply list_elem_of_lookup_2.
  - apply Forall_lookup. intros j line' Hj.
    apply lookup_take_Some in Hj as [Hj Hlt]. by eapply Hbefore.
Qed.

Lemma read_first_match_wins_witness :
  read_mode ["#a=0"; "a=1"; "b=2"; "a=3"] ["b"; "a"] !! 1
  = Some (value_at "a=1" 1).
Proof.
  apply (read_first_match_wins _ _ 1 "a" 1 "a=1" 1); try reflexivity.
  intros [|j] line' Hlt Hj; [|lia].
  injection Hj as <-. left. reflexivity.
Defined.

(** C8, as stated, fails: a key given twice stays twice in the list, and
    two lines are printed for it. *)
Lemma read_set_keeps_duplicates :
  read_arguments read ["a"; "a"] [] [] = Some (["a"; "a"], [])
  ∧ cout (main 6 [opt_f "conf"; opt_r] ["a"; "a"] (conf_of ["a=1"])) = ["1"; "1"].
Proof. split; reflexivity. Qed.

(** C8, as amended: in read mode the key list is the list of the trimmed
    arguments, in the order of the command line and with its duplicates,
    and one line is printed per argument, in that order: the line at
    position [n] holds the value recorded for the key at position [n]
    (the empty string when none is). *)
Theorem read_set_is_argument_list args keys kw lines :
  read_arguments read args [] [] = Some (keys, kw) →
  keys = trim <$> args
  ∧ length (read_mode lines keys) = length args
  ∧ ∀ n key, keys !! n = Some key →
      read_mode lines keys !! n
      = Some (default "" (read_scan lines keys ∅ !! key)).
Proof.
  intros Hargs. apply read_arguments_keys in Hargs as [-> _]; [|by left].
  rewrite app_nil_l. split_and!; [done| |].
  - by rewrite read_mode_length, length_fmap.
  - intros n key. apply read_mode_lookup.
Qed.

Lemma read_set_is_argument_list_witness :
  read_arguments read [" a"; "b"; "a "] [] [] = Some (["a"; "b"; "a"], [])
  ∧ length (read_mode ["a=1"] ["a"; "b"; "a"]) = 3.
Proof.
  split; [reflexivity|].
  exact (proj1 (proj2 (read_set_is_argument_list
                         [" a"; "b"; "a "] ["a"; "b"; "a"] [] ["a=1"] eq_refl))).
Defined.

(** C9: reads are total.  In a read-mode run that opens the file, a
    requested key that no line of the file has (comment lines apart) gets
    the empty string, at the key's own position of the output, and [main]
    returns 0. *)
Theorem read_missing_key_is_empty argc opts operands fs o keys kw input n key :
  accepted argc opts operands o keys kw →
  mode o = read →
  open_in fs (file_to_parse_name o) = Some input →
  keys !! n = Some key →
  Forall (passed_over key) (getlines input) →
  returned (main argc opts operands fs) = 0%Z
  ∧ cout (main argc opts operands fs) !! n = Some "".
Proof.
  intros Hacc Hmode Hopen Hn Hall.
  rewrite (main_accepted _ _ _ _ _ _ _ Hacc). simpl.
  rewrite Hopen, Hmode. simpl. split; [done|].
  by apply (read_mode_missing _ _ _ key).
Qed.

Lemma read_missing_key_is_empty_witness :
  cout (main 7 [opt_f "conf"; opt_r] ["a"; "b"; "c"]
          (conf_of ["a=1"; "#c=99"; "b=2"])) !! 2 = Some "".
Proof.
  refine (proj2 (read_missing_key_is_empty 7 [opt_f "conf"; opt_r] ["a"; "b"; "c"]
                   (conf_of ["a=1"; "#c=99"; "b=2"])
                   (Options "conf" false read) ["a"; "b"; "c"] []
                   (putlines ["a=1"; "#c=99"; "b=2"]) 2 "c" _ _ _ _ _));
    try reflexivity.
  - unfold accepted. simpl. split_and!; try done; [lia|].
    by intros [? _].
  - change (getlines _) with ["a=1"; "#c=99"; "b=2"].
    repeat apply Forall_cons_2; [by right | by left | by right | done].
Defined.

(** *** The two streams *)

(** C10: when the file cannot be opened for reading, no output stream is
    constructed and the files are as they were, whatever the mode. *)
Theorem input_failure_leaves_file argc opts operands fs o :
  getopt_loop opts (Options "" false undefined) = inr o →
  open_in fs (file_to_parse_name o) = None →
  files (main argc opts operands fs) = fs
  ∧ ∀ name is_open, OpenOut name is_open ∉ streams (main argc opts operands fs).
Proof.
  intros Hopts Hopen.
  destruct (main_cases argc opts operands fs) as [[-> | ->]|(o' & keys & kw & Hacc)].
  - split; [done|]. intros ??. apply not_elem_of_nil.
  - split; [done|]. intros ??. apply not_elem_of_nil.
  - rewrite (main_accepted _ _ _ _ _ _ _ Hacc). simpl.
    destruct Hacc as (_ & Hopts' & _). rewrite Hopts in Hopts'.
    injection Hopts' as <-. rewrite Hopen. simpl. split; [done|].
    intros ?? Hin. apply list_elem_of_singleton in Hin. discriminate.
Qed.

Lemma input_failure_leaves_file_witness :
  files (main 5 [opt_f "conf"; opt_w] ["a=10"]
           {[ "conf" := File "a=1" false true ]})
  = {[ "conf" := File "a=1" false true ]}.
Proof.
  exact (proj1 (input_failure_leaves_file 5 [opt_f "conf"; opt_w] ["a=10"]
                  {[ "conf" := File "a=1" false true ]}
                  (Options "conf" false write) eq_refl eq_refl)).
Defined.

(** C6 fails on the code: a run whose input stream is not open ends with
    exit status 0. *)
Theorem input_failure_exit_status argc opts operands fs name :
  OpenIn name false ∈ streams (main argc opts operands fs) →
  exit_status (main argc opts operands fs) = 0%Z.
Proof.
  destruct (main_cases argc opts operands fs) as [[-> | ->]|(o & keys & kw & Hacc)].
  - by intros ?%elem_of_nil.
  - by intros ?%elem_of_nil.
  - rewrite (main_accepted _ _ _ _ _ _ _ Hacc). simpl.
    destruct (open_in fs (file_to_parse_name o)); [|done].
    destruct (mode o); simpl.
    + intros Hin. apply list_elem_of_singleton in Hin. discriminate.
    + destruct (open_out _ _); simpl; intros Hin;
        apply elem_of_cons in Hin as [?|Hin]; try discriminate;
        apply list_elem_of_singleton in Hin; discriminate.
    + destruct (open_out _ _); simpl; intros Hin;
        apply elem_of_cons in Hin as [?|Hin]; try discriminate;
        apply list_elem_of_singleton in Hin; discriminate.
    + intros Hin. apply list_elem_of_singleton in Hin. discriminate.
Qed.

Lemma input_failure_exit_status_witness :
  streams (main 5 [opt_f "missing"; opt_r] ["a"] ∅) = [OpenIn "missing" false]
  ∧ exit_status (main 5 [opt_f "missing"; opt_r] ["a"] ∅) = 0%Z.
Proof.
  split; [reflexivity|].
  apply (input_failure_exit_status 5 [opt_f "missing"; opt_r] ["a"] ∅ "missing").
  vm_compute. left.
Defined.

(** *** Write mode *)

(** C2 fails on the code: [unique] only compares neighbours, so a key
    that comes back after another key stays twice in [keysToWrite], and
    both pairs are written. *)
Theorem write_set_keeps_separated_duplicates :
  read_arguments write ["a=1"; "b=2"; "a=3"] [] []
  = Some ([], [("a", "1"); ("b", "2"); ("a", "3")])
  ∧ unique same_key [("a", "1"); ("b", "2"); ("a", "3")]
    = [("a", "1"); ("b", "2"); ("a", "3")]
  ∧ bytes <$> files (main 7 [opt_f "conf"; opt_w] ["a=1"; "b=2"; "a=3"]
                       (conf_of [])) !! "conf"
    = Some (putlines ["a=1"; "b=2"; "a=3"]).
Proof. split_and!; reflexivity. Qed.

(** C3 fails on the code.  The argument ["a= "] passes the test on the raw
    argument and is trimmed afterwards, to the pair of the key [a] and the
    empty value; its line [a=] is not found again under [a], so every
    application appends it once more, in the Line Store and in the file of
    two runs of [main].  The pairs of [a=1 b=2 a=3], which [unique] leaves
    as they are (C2), are not applied idempotently either. *)
Lemma write_twice_differs :
  read_arguments write ["a= "] [] [] = Some ([], [("a", "")])
  ∧ write_mode [] [("a", "")] = ["a="]
  ∧ write_mode (write_mode [] [("a", "")]) [("a", "")] = ["a="; "a="]
  ∧ bytes <$> files (main 5 [opt_f "conf"; opt_w] ["a= "] (conf_of [])) !! "conf"
    = Some (putlines ["a="])
  ∧ bytes <$> files (main 5 [opt_f "conf"; opt_w] ["a= "]
                       (files (main 5 [opt_f "conf"; opt_w] ["a= "] (conf_of []))))
                !! "conf"
    = Some (putlines ["a="; "a="])
  ∧ write_mode [] [("a", "1"); ("b", "2"); ("a", "3")] = ["a=1"; "b=2"; "a=3"]
  ∧ write_mode (write_mode [] [("a", "1"); ("b", "2"); ("a", "3")])
      [("a", "1"); ("b", "2"); ("a", "3")]
    = ["a=3"; "b=2"; "a=3"].
Proof. split_and!; reflexivity. Qed.

(** Write is idempotent for a write-set whose keys are pairwise distinct
    and whose pairs each give a line [key=value] that [lineHasKey] finds
    under that key (see [parsed_well_formed]: for the pairs of the command
    line, that is a key and a value that are not empty).  For every Line
    Store, applying such a write-set twice gives the line sequence of
    applying it once. *)
Theorem write_idempotent lines keysToWrite :
  well_formed keysToWrite →
  write_mode (write_mode lines keysToWrite) keysToWrite
  = write_mode lines keysToWrite.
Proof.
  intros Hwf. unfold write_mode at 1.
  rewrite write_scan_twice by done.
  simpl. apply app_nil_r.
Qed.

Lemma write_idempotent_witness :
  write_mode (write_mode ["a=1"; "#a=99"; "b=2"; "a=5"] [("a", "10"); ("c", "3")])
    [("a", "10"); ("c", "3")]
  = ["a=10"; "#a=99"; "b=2"; "a=5"; "c=3"].
Proof.
  rewrite (write_idempotent ["a=1"; "#a=99"; "b=2"; "a=5"] [("a", "10"); ("c", "3")]).
  - reflexivity.
  - split.
    + apply (bool_decide_unpack _). vm_compute. exact I.
    + repeat constructor; by eexists.
Defined.

(** C4: pass-through.  A line that has none of the requested keys stays
    where it is in write mode, and is kept by delete mode; in both modes
    these lines come out as they went in, in the same order. *)
Theorem pass_through lines :
  (∀ keysToWrite,
     sublist (filter (untouched_by keysToWrite) lines) (write_mode lines keysToWrite)
     ∧ ∀ i line, lines !! i = Some line → untouched_by keysToWrite line →
         write_mode lines keysToWrite !! i = Some line)
  ∧ (∀ keys,
       sublist (filter (has_none_of keys) lines) (delete_mode lines keys)
       ∧ filter (has_none_of keys) (delete_mode lines keys)
         = filter (has_none_of keys) lines).
Proof.
  split.
  - intros keysToWrite. unfold write_mode.
    destruct (write_scan lines keysToWrite) as [written remaining] eqn:Hs. split.
    + apply sublist_inserts_r. by eapply write_scan_pass_sublist.
    + intros i line Hi Hun. apply lookup_app_l_Some.
      by eapply write_scan_pass_lookup.
  - intros keys. rewrite delete_mode_filter. split; [done|].
    rewrite list_filter_filter. apply list_filter_iff. tauto.
Qed.

Lemma pass_through_witness :
  write_mode ["x=0"; "a=1"; "no key"; "b=2"] [("a", "10"); ("c", "3")] !! 2
  = Some "no key".
Proof.
  apply (proj2 (proj1 (pass_through ["x=0"; "a=1"; "no key"; "b=2"]) _));
    [reflexivity|].
  repeat constructor.
Defined.

(** *** Delete mode *)

(** C5: delete is exhaustive.  Delete mode keeps exactly the lines that
    have none of the keys, in their order: no line that is left has a
    key of the delete-set, and the number of lines goes down by the
    number of lines that have one of the keys. *)
Theorem delete_exhaustive lines keys :
  delete_mode lines keys = filter (has_none_of keys) lines
  ∧ (∀ key line, key ∈ keys → line ∈ delete_mode lines keys →
       lineHasKey line key = None)
  ∧ length (delete_mode lines keys)
    = length lines - length (filter (λ line, ¬ has_none_of keys line) lines)
  ∧ sublist (delete_mode lines keys) lines.
Proof.
  rewrite delete_mode_filter. split_and!.
  - done.
  - intros key line Hkey Hline. apply list_elem_of_filter in Hline as [Hnone _].
    unfold has_none_of in Hnone. rewrite Forall_forall in Hnone. by apply Hnone.
  - pose proof (filter_complement_length (has_none_of keys) lines). lia.
  - apply sublist_filter.
Qed.

Lemma delete_exhaustive_witness :
  delete_mode ["a=1"; "b=2"; "a=3"; "c=4"; "a=5"] ["a"; "c"; "a"] = ["b=2"]
  ∧ length (delete_mode ["a=1"; "b=2"; "a=3"; "c=4"; "a=5"] ["a"; "c"; "a"]) = 5 - 4.
Proof.
  split; [reflexivity|].
  exact (proj1 (proj2 (proj2 (delete_exhaustive
           ["a=1"; "b=2"; "a=3"; "c=4"; "a=5"] ["a"; "c"; "a"])))).
Defined.

(** *** Comment lines *)

(** C7 fails on the code: only the read loop looks at the first character
    of the line.  In write and delete mode a comment line is matched by
    the key that starts with [#], and is rewritten or removed. *)
Theorem comment_line_written_and_deleted :
  is_comment "#a=1" = true
  ∧ lineHasKey "#a=1" "#a" = Some 2
  ∧ write_mode ["#a=1"; "b=2"] [("#a", "2")] = ["#a=2"; "b=2"]
  ∧ delete_mode ["#a=1"; "b=2"] ["#a"] = ["b=2"]
  ∧ read_mode ["#a=1"; "b=2"] ["#a"] = [""].
Proof. split_and!; reflexivity. Qed.

(** *** Further properties *)

Lemma is_comment_inv line :
  is_comment line = true → ∃ s, line = String "#" s.
Proof.
  destruct line as [|d s]; simpl; [done|].
  intros ->%Ascii.eqb_eq. by exists s.
Qed.

Lemma read_scan_skips_comments lines keys m :
  read_scan lines keys m
  = read_scan (filter (λ line, is_comment line = false) lines) keys m.
Proof.
  revert m. induction lines as [|line lines IH]; intros m; [done|].
  rewrite filter_cons. simpl. destruct (is_comment line) eqn:Hc.
  - rewrite decide_False by done. apply IH.
  - rewrite decide_True by done. simpl. rewrite Hc. apply IH.
Qed.

(** What holds of comment immunity.  [lineHasKey] finds a key on a comment
    line only if the key starts with [#] itself, so no operation on a key
    that does not start with [#] matches, rewrites or removes a comment
    line; and read mode prints what it would print without the comment
    lines, whatever the keys. *)
Theorem comment_line_immunity line key keys lines :
  is_comment line = true →
  (is_comment key = false → lineHasKey line key = None)
  ∧ read_mode (line :: lines) keys = read_mode lines keys
  ∧ read_mode lines keys
    = read_mode (filter (λ line, is_comment line = false) lines) keys.
Proof.
  intros Hc. split_and!.
  - intros Hkey. destruct (lineHasKey line key) as [eq_pos|] eqn:Hl; [|done].
    apply lineHasKey_Some in Hl as (_ & Hpos & _ & Htrim).
    apply is_comment_inv in Hc as [s ->].
    destruct eq_pos as [|p]; [lia|]. unfold substr in Htrim. simpl in Htrim.
    destruct (trim_first "#" (substring 0 p s) eq_refl) as [t Ht].
    rewrite Ht in Htrim. by subst key.
  - unfold read_mode. simpl. by rewrite Hc.
  - unfold read_mode. by rewrite <- read_scan_skips_comments.
Qed.

Lemma comment_line_immunity_witness :
  lineHasKey "#a=99" "a" = None
  ∧ read_mode ("#a=99" :: ["a=1"]) ["a"] = read_mode ["a=1"] ["a"].
Proof.
  pose proof (comment_line_immunity "#a=99" "a" ["a"] ["a=1"] eq_refl) as H.
  split; [exact (proj1 H eq_refl) | exact (proj1 (proj2 H))].
Defined.

(** Write is idempotent for the write-sets of the command line: when the
    pairs [main] makes of the write-mode arguments have distinct keys and
    neither an empty key nor an empty value, writing them twice gives the
    lines of writing them once. *)
Theorem write_idempotent_command_line args keys kw lines :
  read_arguments write args [] [] = Some (keys, kw) →
  NoDup (unique same_key kw).*1 →
  Forall (λ kv, kv.1 ≠ "" ∧ kv.2 ≠ "") (unique same_key kw) →
  write_mode (write_mode lines (unique same_key kw)) (unique same_key kw)
  = write_mode lines (unique same_key kw).
Proof.
  intros Hargs Hnd Hne. unfold write_mode at 1.
  rewrite write_scan_twice by by eapply parsed_well_formed.
  simpl. apply app_nil_r.
Qed.

Lemma write_idempotent_command_line_witness :
  write_mode (write_mode ["a=1"; "b=2"] [("a", "10"); ("c", "3")])
    [("a", "10"); ("c", "3")]
  = write_mode ["a=1"; "b=2"] [("a", "10"); ("c", "3")].
Proof.
  apply (write_idempotent_command_line [" a =10"; "a=11"; "c= 3 "] []
           [("a", "10"); ("a", "11"); ("c", "3")]); [reflexivity| |].
  - apply (bool_decide_unpack _). vm_compute. exact I.
  - repeat constructor; done.
Defined.

(** The exit status where the claim on it holds: a run that cannot open
    its output stream ends with a status that is not 0 and leaves the
    files as they were; a run that opens both streams, or the input
    stream in read mode, ends with status 0. *)
Theorem exit_status_of_streams argc opts operands fs name :
  (OpenOut name false ∈ streams (main argc opts operands fs) →
   exit_status (main argc opts operands fs) = 255%Z
   ∧ files (main argc opts operands fs) = fs)
  ∧ (last (streams (main argc opts operands fs)) = Some (OpenOut name true)
     ∨ streams (main argc opts operands fs) = [OpenIn name true] →
     exit_status (main argc opts operands fs) = 0%Z).
Proof.
  destruct (main_cases argc opts operands fs) as [[-> | ->]|(o & keys & kw & Hacc)].
  - split; [by intros ?%elem_of_nil | by intros [?|?]].
  - split; [by intros ?%elem_of_nil | by intros [?|?]].
  - rewrite (main_accepted _ _ _ _ _ _ _ Hacc). simpl.
    destruct (open_in fs (file_to_parse_name o)); simpl.
    2:{ split; [|by intros [?|?]].
        intros Hin. apply list_elem_of_singleton in Hin. discriminate. }
    destruct (mode o); simpl;
      try (split; [|done]; intros Hin; apply list_elem_of_singleton in Hin;
           discriminate).
    + destruct (open_out _ _); simpl.
      * split; [|done]. intros Hin. apply elem_of_cons in Hin as [?|Hin];
          [discriminate|]. apply list_elem_of_singleton in Hin. discriminate.
      * split; [done|]. by intros [?|?].
    + destruct (open_out _ _); simpl.
      * split; [|done]. intros Hin. apply elem_of_cons in Hin as [?|Hin];
          [discriminate|]. apply list_elem_of_singleton in Hin. discriminate.
      * split; [done|]. by intros [?|?].
Qed.

Lemma exit_status_of_streams_witness :
  exit_status (main 5 [opt_f "conf"; opt_d] ["a"]
                 {[ "conf" := File "a=1" true false ]}) = 255%Z.
Proof.
  apply (proj1 (exit_status_of_streams 5 [opt_f "conf"; opt_d] ["a"]
                  {[ "conf" := File "a=1" true false ]} "conf")).
  vm_compute. right. left.
Defined.

(** The scenario of the specification: the file of the lines [a=1],
    [#a=99] and [b=2]; reading [a], [b] and [c]; writing [a=10] and [c=3];
    deleting [a]. *)
Theorem scenario :
  cout (main 7 [opt_f "conf"; opt_r] ["a"; "b"; "c"]
          (conf_of ["a=1"; "#a=99"; "b=2"]))
  = ["1"; "2"; ""]
  ∧ bytes <$> files (main 6 [opt_f "conf"; opt_w] ["a=10"; "c=3"]
                       (conf_of ["a=1"; "#a=99"; "b=2"])) !! "conf"
    = Some (putlines ["a=10"; "#a=99"; "b=2"; "c=3"])
  ∧ bytes <$> files (main 5 [opt_f "conf"; opt_d] ["a"]
                       (conf_of ["a=1"; "#a=99"; "b=2"])) !! "conf"
    = Some (putlines ["#a=99"; "b=2"]).
Proof. split_and!; reflexivity. Qed.

(** Write is idempotent through the file.  In a write-mode run that opens
    both streams, with a well-formed write-set whose keys and values hold
    no newline, running [main] again with the same command line on the
    files the first run has left gives the outcome of the first run: the
    same files, nothing on [std::cout], and the same returned value. *)
Theorem write_twice_through_file argc opts operands fs o keys kw :
  accepted argc opts operands o keys kw →
  mode o = write →
  well_formed (unique same_key kw) →
  Forall (λ kv, no_newline kv.1 ∧ no_newline kv.2) (unique same_key kw) →
  streams (main argc opts operands fs)
  = [OpenIn (file_to_parse_name o) true; OpenOut (file_to_parse_name o) true] →
  main argc opts operands (files (main argc opts operands fs))
  = main argc opts operands fs.
Proof.
  intros Hacc Hmode Hwf Hnl.
  rewrite !(main_accepted _ _ _ _ _ _ _ Hacc). cbn zeta. rewrite Hmode.
  set (name := file_to_parse_name o). set (ws := unique same_key kw).
  destruct (open_in fs name) as [input|] eqn:Hin; [|done].
  destruct (open_out fs name) as [fs'|] eqn:Hout; [|done]. intros _.
  cbn [files]. rewrite bool_decide_eq_true_2 by done.
  rewrite (put_open_out _ _ _ _ _ Hin Hout).
  set (result := write_mode (getlines input) ws).
  assert (Forall no_newline result) as Hresult.
  { apply write_mode_no_newline; [by apply getlines_from_no_newline|].
    eapply Forall_impl; [done|]. intros kv [??].
    by apply key_value_line_no_newline. }
  assert (open_in (<[name := File (putlines result) true true]> fs) name
          = Some (putlines result)) as ->.
  { unfold open_in. by rewrite lookup_insert_eq. }
  assert (open_out (<[name := File (putlines result) true true]> fs) name
          = Some (<[name := File "" true true]> fs)) as ->.
  { unfold open_out. rewrite lookup_insert_eq. cbn. by rewrite insert_insert_eq. }
  rewrite getlines_putlines by done.
  unfold result at 1. unfold write_mode at 1.
  rewrite write_scan_twice by done. cbn [fmap list_fmap]. rewrite app_nil_r.
  fold result. unfold put. rewrite lookup_insert_eq. cbn.
  by rewrite insert_insert_eq.
Qed.

Lemma write_twice_through_file_witness :
  files (main 6 [opt_f "conf"; opt_w] ["a=10"; "c=3"]
           (files (main 6 [opt_f "conf"; opt_w] ["a=10"; "c=3"]
                     (conf_of ["a=1"; "#a=99"; "b=2"]))))
  = conf_of ["a=10"; "#a=99"; "b=2"; "c=3"].
Proof.
  rewrite (write_twice_through_file 6 [opt_f "conf"; opt_w] ["a=10"; "c=3"]
             (conf_of ["a=1"; "#a=99"; "b=2"]) (Options "conf" false write)
             [] [("a", "10"); ("c", "3")]).
  - vm_compute. reflexivity.
  - unfold accepted. simpl. split_and!; try done; [lia|]. by intros [_ ?].
  - reflexivity.
  - split.
    + apply (bool_decide_unpack _). vm_compute. exact I.
    + repeat constructor; by eexists.
  - repeat constructor.
  - reflexivity.
Defined.

(** ** More on the string helpers and [lineHasKey] *)

Section Trim.
Implicit Types (s t : string) (c : ascii).

Lemma chars_app s t :
  list_ascii_of_string (s ++ t)
  = (list_ascii_of_string s ++ list_ascii_of_string t)%list.
Proof.
  induction s as [|c s IH]; [done|]. rewrite append_cons. simpl. by rewrite IH.
Qed.

Lemma ltrim_split s :
  ∃ lead, s = lead ++ ltrim s ∧ blank lead
    ∧ ∀ c, head (list_ascii_of_string (ltrim s)) = Some c → is_space c = false.
Proof.
  induction s as [|c s (lead & Hs & Hlead & Hhead)].
  - exists "". split_and!; [done|constructor|done].
  - simpl. destruct (is_space c) eqn:Hc.
    + exists (String c lead). rewrite append_cons, <- Hs.
      split_and!; [done| by constructor |done].
    + exists "". split_and!; [done|constructor|].
      simpl. by intros ? [= <-].
Qed.

Lemma rtrim_split s :
  ∃ trail, s = rtrim s ++ trail ∧ blank trail
    ∧ ∀ c, last (list_ascii_of_string (rtrim s)) = Some c → is_space c = false.
Proof.
  induction s as [|c s (trail & Hs & Htrail & Hlast)].
  - exists "". split_and!; [done|constructor|done].
  - simpl. destruct (rtrim s) as [|e r] eqn:Hr.
    + change ("" ++ trail) with trail in Hs. subst s.
      destruct (is_space c) eqn:Hc.
      * exists (String c trail). split_and!; [done| by constructor |done].
      * exists trail. split_and!; [done..|]. simpl. by intros ? [= <-].
    + exists trail. rewrite append_cons, <- Hs. split_and!; [done..|].
      intros d. simpl. simpl in Hlast. apply Hlast.
Qed.

End Trim.


Section TrimSpec.
Implicit Types (s t : string) (c : ascii).

Lemma blank_nil_inv s : blank s → tight s → s = "".
Proof.
  destruct s as [|c s]; [done|]. intros Hb [Hh _].
  apply Forall_cons in Hb as [Hc _]. specialize (Hh c eq_refl). congruence.
Qed.

Lemma ltrim_blank s : blank s → ltrim s = "".
Proof.
  induction s as [|c s IH]; [done|]. intros [Hc Hs]%Forall_cons.
  simpl. rewrite Hc. by apply IH.
Qed.

Lemma rtrim_blank s : blank s → rtrim s = "".
Proof.
  induction s as [|c s IH]; [done|]. intros [Hc Hs]%Forall_cons.
  simpl. by rewrite IH, Hc.
Qed.

Lemma ltrim_tight s :
  (∀ c, head (list_ascii_of_string s) = Some c → is_space c = false) →
  ltrim s = s.
Proof.
  destruct s as [|c s]; [done|]. intros Hh. simpl. by rewrite (Hh c eq_refl).
Qed.

Lemma rtrim_tight s :
  (∀ c, last (list_ascii_of_string s) = Some c → is_space c = false) →
  rtrim s = s.
Proof.
  induction s as [|c s IH]; [done|]. intros Hl. simpl.
  destruct s as [|e s].
  - simpl. by rewrite (Hl c eq_refl).
  - rewrite IH; [done|]. intros d Hd. apply Hl. by simpl in *.
Qed.

Lemma last_app_cons {A} (l : list A) x k : last (l ++ x :: k) = last (x :: k).
Proof. induction l as [|y [|z l] IH]; try done. Qed.

End TrimSpec.

Lemma trim_split s :
  ∃ lead trail, s = lead ++ trim s ++ trail ∧ blank lead ∧ blank trail
    ∧ tight (trim s).
Proof.
  unfold trim.
  destruct (rtrim_split s) as (trail & Hs & Htrail & Hlast).
  destruct (ltrim_split (rtrim s)) as (lead & Hr & Hlead & Hhead).
  exists lead, trail. split_and!; [|done..|].
  - rewrite <- append_assoc, <- Hr. done.
  - split; [done|]. intros c Hc. apply Hlast. rewrite Hr, chars_app.
    destruct (list_ascii_of_string (ltrim (rtrim s))) as [|d l]; [done|].
    by rewrite last_app_cons.
Qed.

(** [trim] takes the [\s] characters off both ends, and nothing else:
    what is left neither starts nor ends with one; it is empty exactly for
    the strings made of [\s] characters, and it is the string itself
    exactly for the strings that neither start nor end with one. *)
Theorem trim_spec s :
  (∃ lead trail, s = lead ++ trim s ++ trail ∧ blank lead ∧ blank trail)
  ∧ tight (trim s)
  ∧ (blank s ↔ trim s = "")
  ∧ (tight s ↔ trim s = s).
Proof.
  destruct (trim_split s) as (lead & trail & Hs & Hlead & Htrail & Htight).
  split_and!.
  - by exists lead, trail.
  - done.
  - split.
    + intros Hb. unfold trim. by rewrite rtrim_blank.
    + intros Ht. rewrite Ht in Hs. change ("" ++ trail) with trail in Hs.
      rewrite Hs. unfold blank. rewrite chars_app. by apply Forall_app.
  - split.
    + intros [Hh Hl]. unfold trim. by rewrite rtrim_tight, ltrim_tight.
    + intros Heq. by rewrite Heq in Htight.
Qed.

Section LineShape.
Implicit Types (s t line key : string) (c : ascii).

Lemma find_first_of_split c s eq_pos :
  find_first_of c s = Some eq_pos →
  ∃ rest, s = substr s 0 eq_pos ++ String c rest
    ∧ String.length (substr s 0 eq_pos) = eq_pos.
Proof.
  unfold substr. revert eq_pos.
  induction s as [|d s IH]; intros eq_pos; simpl; [done|].
  destruct (Ascii.eqb_spec d c) as [->|Hne].
  - intros [= <-]. by exists s.
  - destruct (find_first_of c s) as [p|]; [|done]. intros [= <-].
    destruct (IH p eq_refl) as (rest & Hs & Hlen). exists rest. simpl.
    rewrite append_cons, <- Hs, Hlen. done.
Qed.

Lemma blank_no_eq s : blank s → find_first_of "=" s = None.
Proof.
  induction s as [|c s IH]; [done|]. intros [Hc Hs]%Forall_cons. simpl.
  destruct (Ascii.eqb_spec c "=") as [->|_]; [done|]. by rewrite IH.
Qed.

Lemma blank_app s t : blank (s ++ t) ↔ blank s ∧ blank t.
Proof. unfold blank. rewrite chars_app. apply Forall_app. Qed.

Lemma ltrim_app_blank s t : blank s → ltrim (s ++ t) = ltrim t.
Proof.
  induction s as [|c s IH]; [done|]. intros [Hc Hs]%Forall_cons.
  rewrite append_cons. simpl. rewrite Hc. by apply IH.
Qed.

Lemma rtrim_app_blank s t : blank t → rtrim (s ++ t) = rtrim s.
Proof.
  intros Ht. induction s as [|c s IH].
  - simpl. by apply rtrim_blank.
  - rewrite append_cons. simpl. by rewrite IH.
Qed.

Lemma rtrim_app_tight s t :
  t ≠ "" → rtrim t = t → rtrim (s ++ t) = s ++ t.
Proof.
  intros Hne Ht. induction s as [|c s IH]; [done|].
  rewrite append_cons. simpl. rewrite IH.
  destruct (s ++ t) eqn:Hst; [|done].
  destruct s; [|done]. by destruct t.
Qed.

(** What [trim] gives for a tight string between blanks. *)
Lemma trim_padded lead s trail :
  blank lead → blank trail → tight s → trim (lead ++ s ++ trail) = s.
Proof.
  intros Hlead Htrail [Hh Hl]. unfold trim.
  rewrite <- append_assoc, rtrim_app_blank by done.
  destruct s as [|c s].
  - rewrite append_nil_r, rtrim_blank by done. done.
  - rewrite rtrim_app_tight; [|done|by apply rtrim_tight].
    rewrite ltrim_app_blank by done. by apply ltrim_tight.
Qed.

End LineShape.

(** The shape of the lines that have a key: the line is the key, between
    [\s] characters, then [=], then a value that is not empty; the key
    itself neither starts nor ends with a [\s] character and holds no
    [=], and key and surrounding [\s] are not all empty.  [lineHasKey]
    answers the position of that [=]. *)
Theorem lineHasKey_shape line key eq_pos :
  lineHasKey line key = Some eq_pos ↔
  ∃ lead trail value,
    line = lead ++ key ++ trail ++ "=" ++ value
    ∧ blank lead ∧ blank trail ∧ tight key
    ∧ find_first_of "=" key = None
    ∧ value ≠ ""
    ∧ eq_pos = String.length (lead ++ key ++ trail)
    ∧ (0 < eq_pos)%nat.
Proof.
  rewrite lineHasKey_Some. split.
  - intros (Hfind & Hpos & Hlast & Htrim).
    destruct (find_first_of_split _ _ _ Hfind) as (value & Hline & Hlen).
    pose proof (find_first_of_substr _ _ _ Hfind) as Hnoeq.
    destruct (trim_split (substr line 0 eq_pos))
      as (lead & trail & Hsplit & Hlead & Htrail & Htight).
    rewrite Htrim in *. exists lead, trail, value. split_and!; try done.
    + rewrite Hline at 1. rewrite Hsplit at 1.
      by rewrite !append_assoc.
    + by apply find_first_of_trim in Hnoeq; rewrite Htrim in Hnoeq.
    + intros ->. rewrite Hline, length_app, Hlen in Hlast. simpl in Hlast. lia.
    + by rewrite <- Hsplit.
  - intros (lead & trail & value & -> & Hlead & Htrail & Htight & Hnoeq
            & Hvalue & -> & Hpos).
    assert (lead ++ key ++ trail ++ "=" ++ value
            = (lead ++ key ++ trail) ++ String "=" value) as ->.
    { by rewrite !append_assoc. }
    assert (find_first_of "=" (lead ++ key ++ trail) = None) as Hprefix.
    { repeat apply find_first_of_app_None; auto using blank_no_eq. }
    split_and!.
    + by apply find_first_of_app.
    + done.
    + rewrite (length_app (lead ++ key ++ trail)). simpl.
      destruct value; [done|simpl; lia].
    + rewrite substr_app_prefix. by apply trim_padded.
Qed.

(** ** More on the three modes *)

Section ReadPerKey.
Implicit Types (m : gmap string string) (keys lines : list string).

Lemma read_line_not_requested line keys m key :
  key ∉ keys → read_line line keys m !! key = m !! key.
Proof.
  revert m. induction keys as [|k keys IH]; intros m Hnotin; simpl; [done|].
  apply not_elem_of_cons in Hnotin as [Hne Hnotin].
  destruct (lineHasKey line k); rewrite IH by done; [|done].
  rewrite emplace_lookup. destruct (m !! key); [done|].
  by rewrite decide_False.
Qed.

Lemma read_scan_lookup lines keys m key :
  read_scan lines keys m !! key =
  match m !! key with
  | Some v => Some v
  | None => if decide (key ∈ keys) then first_match lines key else None
  end.
Proof.
  revert m. induction lines as [|line lines IH]; intros m; simpl.
  - destruct (m !! key); [done|]. by case_decide.
  - destruct (is_comment line); [apply IH|]. rewrite IH.
    destruct (m !! key) as [v|] eqn:Hm.
    { by rewrite (read_line_recorded _ _ _ _ _ Hm). }
    destruct (decide (key ∈ keys)) as [Hin|Hnotin].
    + destruct (lineHasKey line key) as [eq_pos|] eqn:Hl.
      * by rewrite (read_line_match _ _ _ _ _ Hm Hin Hl).
      * by rewrite (read_line_no_match _ _ _ _ Hm Hl).
    + by rewrite read_line_not_requested, Hm.
Qed.

Lemma read_mode_first_match lines keys :
  read_mode lines keys = (λ key, default "" (first_match lines key)) <$> keys.
Proof.
  unfold read_mode. rewrite emit_lookup. apply list_fmap_ext.
  intros i key Hi. rewrite read_scan_lookup, lookup_empty.
  rewrite decide_True; [done|]. by eapply list_elem_of_lookup_2.
Qed.

Lemma first_match_app lines1 lines2 key :
  first_match (lines1 ++ lines2) key =
  match first_match lines1 key with
  | Some v => Some v
  | None => first_match lines2 key
  end.
Proof.
  induction lines1 as [|line lines1 IH]; simpl; [done|].
  destruct (is_comment line); [done|]. by destruct (lineHasKey line key).
Qed.

Lemma first_match_passed_over lines key :
  Forall (passed_over key) lines → first_match lines key = None.
Proof.
  induction 1 as [|line lines Hline _ IH]; simpl; [done|].
  destruct (is_comment line) eqn:Hc; [done|].
  destruct Hline as [? | ->]; [congruence|done].
Qed.

Lemma first_match_cons_passed_over line lines key :
  passed_over key line → first_match (line :: lines) key = first_match lines key.
Proof.
  intros Hline. simpl. destruct (is_comment line) eqn:Hc; [done|].
  destruct Hline as [? | ->]; [congruence|done].
Qed.

End ReadPerKey.

(** Read mode looks every key up on its own: what is printed for a key
    does not depend on the other keys of the request, and a request made
    of two lists prints what the two lists print, one after the other. *)
Theorem read_keys_independent lines keys1 keys2 :
  read_mode lines (keys1 ++ keys2) = (read_mode lines keys1 ++ read_mode lines keys2)%list
  ∧ ∀ n key, keys1 !! n = Some key →
      read_mode lines keys1 !! n = read_mode lines [key] !! 0.
Proof.
  rewrite !read_mode_first_match. split; [apply fmap_app|].
  intros n key Hn. rewrite read_mode_first_match, list_lookup_fmap, Hn. done.
Qed.

Section StringsMore.
Implicit Types (s t : string) (c : ascii).

Lemma ltrim_length s : (String.length (ltrim s) ≤ String.length s)%nat.
Proof.
  induction s as [|c s IH]; simpl; [done|]. destruct (is_space c); simpl; lia.
Qed.

Lemma rtrim_length s : (String.length (rtrim s) ≤ String.length s)%nat.
Proof.
  induction s as [|c s IH]; simpl; [done|].
  destruct (rtrim s); [destruct (is_space c)|]; simpl in *; lia.
Qed.

Lemma trim_length s : (String.length (trim s) ≤ String.length s)%nat.
Proof.
  unfold trim. pose proof (ltrim_length (rtrim s)). pose proof (rtrim_length s). lia.
Qed.

Lemma substr_length s n : (String.length (substr s 0 n) ≤ n)%nat.
Proof.
  unfold substr. revert n. induction s as [|c s IH]; intros [|n]; simpl; try lia.
  specialize (IH n). lia.
Qed.

Lemma find_first_of_app_le c s t eq_pos :
  find_first_of c (s ++ String c t) = Some eq_pos → (eq_pos ≤ String.length s)%nat.
Proof.
  revert eq_pos. induction s as [|d s IH]; intros eq_pos.
  - simpl. rewrite Ascii.eqb_refl. intros [= <-]. done.
  - rewrite append_cons. simpl. destruct (Ascii.eqb d c).
    + intros [= <-]. lia.
    + destruct (find_first_of c (s ++ String c t)) as [p|]; [|done].
      intros [= <-]. specialize (IH p eq_refl). lia.
Qed.

Lemma substr_app_suffix s c t n :
  (String.length t ≤ n)%nat → substr (s ++ String c t) (String.length s + 1) n = t.
Proof.
  unfold substr. intros Hn. induction s as [|d s IH].
  - simpl. clear -Hn. revert n Hn.
    induction t as [|e t IH]; intros [|n] Hn; simpl in *; try done; try lia.
    rewrite IH; [done|lia].
  - rewrite append_cons. simpl. apply IH.
Qed.

End StringsMore.

Section WriteMore.
Implicit Types (line : string) (lines : list string).
Implicit Types (kv : string * string) (pending : list (string * string)).

(** The key of a self-matching pair ends where its [=] stands, and the
    value read from its line is the trimmed value of the pair. *)
Lemma self_matching_line kv :
  self_matching kv →
  lineHasKey (key_value_line kv) kv.1 = Some (String.length kv.1)
  ∧ (0 < String.length kv.1)%nat
  ∧ value_at (key_value_line kv) (String.length kv.1) = trim kv.2.
Proof.
  destruct kv as [k v]. intros [p Hp]. simpl in *.
  pose proof Hp as (Hfind & Hpos & _ & Htrim)%lineHasKey_Some.
  unfold key_value_line in *. simpl in *.
  change ("=" ++ v) with (String "=" v) in *.
  assert (p = String.length k) as ->.
  { apply find_first_of_app_le in Hfind.
    pose proof (trim_length (substr (k ++ String "=" v) 0 p)) as H1.
    pose proof (substr_length (k ++ String "=" v) p) as H2.
    rewrite Htrim in H1. lia. }
  split_and!; [done..|]. unfold value_at.
  rewrite substr_app_suffix; [done|]. rewrite length_app. simpl. lia.
Qed.

Lemma self_matching_no_comment kv :
  self_matching kv → is_comment kv.1 = false →
  is_comment (key_value_line kv) = false.
Proof.
  intros (_ & Hlen & _)%self_matching_line. destruct kv as [[|c k] v]; simpl in *.
  - lia.
  - done.
Qed.

Lemma write_line_hit line pending kv :
  well_formed pending → kv ∈ pending → has_key kv.1 line →
  ∃ pending', write_line line pending = (key_value_line kv, pending')
    ∧ sublist pending' pending ∧ kv.1 ∉ pending'.*1.
Proof.
  intros Hwf Hin Hkey. induction pending as [|kv0 pending IH].
  { by apply elem_of_nil in Hin. }
  pose proof (well_formed_untouched _ _ Hwf) as Hrest.
  apply well_formed_cons in Hwf as (Hself & Hwf & Hnotin). simpl.
  destruct (decide (kv0.1 = kv.1)) as [Heq|Hne].
  - apply elem_of_cons in Hin as [->|Hin].
    + destruct Hkey as [p ->]. rewrite write_line_untouched by done.
      exists pending. split_and!; [done|by apply sublist_cons|done].
    + destruct Hnotin. rewrite Heq. by apply list_elem_of_fmap_2.
  - apply elem_of_cons in Hin as [->|Hin]; [done|].
    destruct Hkey as [p Hp].
    rewrite (lineHasKey_other _ _ _ _ Hp) by done.
    destruct (IH Hwf Hin) as (pending' & -> & Hsub & Hnot).
    exists (kv0 :: pending'). split_and!; [done|by apply sublist_skip|].
    rewrite fmap_cons. apply not_elem_of_cons. done.
Qed.

Lemma write_line_miss line pending kv line' pending' :
  well_formed pending → kv ∈ pending → lineHasKey line kv.1 = None →
  write_line line pending = (line', pending') →
  kv ∈ pending' ∧ lineHasKey line' kv.1 = None.
Proof.
  revert line line' pending'.
  induction pending as [|kv0 pending IH]; intros line line' pending' Hwf Hin Hmiss.
  { by apply elem_of_nil in Hin. }
  pose proof (well_formed_untouched _ _ Hwf) as Hrest.
  pose proof Hwf as (Hself & Hwf' & Hnotin)%well_formed_cons. simpl.
  destruct (lineHasKey line kv0.1) eqn:Hl.
  - rewrite write_line_untouched by done. intros [= <- <-].
    apply elem_of_cons in Hin as [->|Hin]; [congruence|].
    split; [done|]. unfold untouched_by in Hrest. rewrite Forall_forall in Hrest.
    by apply Hrest.
  - destruct (write_line line pending) as [l r] eqn:Hw. intros [= <- <-].
    apply elem_of_cons in Hin as [->|Hin].
    + split; [left|].
      apply write_line_inv in Hw as [[->|(kv' & Hin' & ->)] _]; [done|].
      by apply (well_formed_other kv0 kv' pending).
    + destruct (IH _ _ _ Hwf' Hin Hmiss Hw). split; [by right|done].
Qed.

(** After the scan, the pair is still pending and no line has its key, or
    the first line that has its key is the line of the pair. *)
Lemma write_scan_first_match lines pending kv written remaining :
  well_formed pending → kv ∈ pending → is_comment kv.1 = false →
  write_scan lines pending = (written, remaining) →
  (kv ∈ remaining ∧ Forall (λ line, lineHasKey line kv.1 = None) written)
  ∨ first_match written kv.1 = Some (trim kv.2).
Proof.
  revert pending written remaining.
  induction lines as [|line lines IH];
    intros pending written remaining Hwf Hin Hc; simpl.
  - intros [= <- <-]. by left.
  - destruct (write_line line pending) as [line' pending'] eqn:Hl.
    destruct (write_scan lines pending') as [w r] eqn:Hs. intros [= <- <-].
    assert (Forall self_matching pending) as Hall by apply Hwf.
    rewrite Forall_forall in Hall.
    destruct (lineHasKey line kv.1) as [p|] eqn:Hkey.
    + right. destruct (write_line_hit line pending kv) as (p' & Hl' & _);
        [done|done|by exists p|].
      rewrite Hl in Hl'. injection Hl' as -> _. simpl.
      rewrite self_matching_no_comment by auto.
      destruct (self_matching_line kv) as (-> & _ & ->); auto.
    + destruct (write_line_miss _ _ _ _ _ Hwf Hin Hkey Hl) as [Hin' Hmiss].
      apply write_line_inv in Hl as [_ Hsub].
      destruct (IH _ _ _ (well_formed_sublist _ _ Hsub Hwf) Hin' Hc Hs)
        as [[Hr Hw]|Hfirst].
      * left. split; [done|]. by constructor.
      * right. rewrite first_match_cons_passed_over; [done|by right].
Qed.

Lemma first_match_appended pending kv :
  well_formed pending → kv ∈ pending → is_comment kv.1 = false →
  first_match (key_value_line <$> pending) kv.1 = Some (trim kv.2).
Proof.
  intros Hwf Hin Hc. induction pending as [|kv0 pending IH].
  { by apply elem_of_nil in Hin. }
  pose proof (well_formed_untouched _ _ Hwf) as Hrest.
  pose proof Hwf as (Hself & Hwf' & Hnotin)%well_formed_cons.
  rewrite fmap_cons. apply elem_of_cons in Hin as [->|Hin].
  - simpl. rewrite self_matching_no_comment by done.
    by destruct (self_matching_line kv0) as (-> & _ & ->).
  - rewrite first_match_cons_passed_over; [by apply IH|]. right.
    destruct Hself as [p Hp]. eapply lineHasKey_other; [done|].
    intros Heq. apply Hnotin. rewrite Heq. by apply list_elem_of_fmap_2.
Qed.

(** A line that has a key which is not pending goes through the scan. *)
Lemma first_match_write_scan_other lines pending written remaining key :
  well_formed pending → key ∉ pending.*1 →
  write_scan lines pending = (written, remaining) →
  first_match written key = first_match lines key.
Proof.
  revert pending written remaining.
  induction lines as [|line lines IH]; intros pending written remaining Hwf Hkey;
    cbn [write_scan].
  - by intros [= <- <-].
  - destruct (write_line line pending) as [line' pending'] eqn:Hl.
    destruct (write_scan lines pending') as [w r] eqn:Hs. intros [= <- <-].
    pose proof Hl as [Hline' Hsub]%write_line_inv.
    assert (first_match w key = first_match lines key) as IH'.
    { eapply IH; [by eapply well_formed_sublist| |done].
      intros Hin. apply Hkey. eapply sublist_subseteq; [|done].
      by apply fmap_sublist. }
    destruct (decide (untouched_by pending line)) as [Hun|Hto].
    + apply write_line_pass in Hl as ->; [|done]. simpl. by rewrite IH'.
    + apply not_Forall_Exists in Hto; [|apply _].
      apply Exists_exists in Hto as (kv0 & Hin0 & Hhas).
      destruct (lineHasKey line kv0.1) as [p0|] eqn:Hp0; [|done].
      assert (passed_over key line) as Hold.
      { right. eapply lineHasKey_other; [done|]. intros <-.
        apply Hkey. by apply list_elem_of_fmap_2. }
      assert (passed_over key line') as Hnew.
      { destruct Hline' as [->|(kv' & Hin' & ->)]; [done|].
        right. by apply (well_formed_other kv0 kv' pending). }
      rewrite !first_match_cons_passed_over by done. done.
Qed.

End WriteMore.

(** Write, then read.  For a well-formed write-set, the value read back
    for a written key that does not start with [#] is the trimmed value
    of its pair, whatever the file held; and the keys that are not
    written read as they did before. *)
Theorem write_then_read lines keysToWrite keys n key :
  well_formed keysToWrite →
  keys !! n = Some key →
  (∀ value, (key, value) ∈ keysToWrite → is_comment key = false →
     read_mode (write_mode lines keysToWrite) keys !! n = Some (trim value))
  ∧ (key ∉ keysToWrite.*1 →
     read_mode (write_mode lines keysToWrite) keys !! n
     = read_mode lines keys !! n).
Proof.
  intros Hwf Hn. rewrite !read_mode_first_match, !list_lookup_fmap, Hn. simpl.
  unfold write_mode.
  destruct (write_scan lines keysToWrite) as [written remaining] eqn:Hs.
  rewrite first_match_app. split.
  - intros value Hin Hc.
    destruct (write_scan_first_match _ _ (key, value) _ _ Hwf Hin Hc Hs)
      as [[Hrem Hnone]|Hfirst]; simpl in *.
    + rewrite first_match_passed_over.
      2:{ eapply Forall_impl; [done|]. intros ??. by right. }
      pose proof (first_match_appended remaining (key, value)) as Hap.
      simpl in Hap. rewrite Hap; [done| |done..].
      eapply well_formed_sublist; [|done]. by apply write_scan_inv in Hs as [_ ?].
    + by rewrite Hfirst.
  - intros Hkey.
    rewrite (first_match_write_scan_other _ _ _ _ _ Hwf Hkey Hs).
    destruct (first_match lines key); [done|].
    rewrite first_match_passed_over; [done|].
    apply Forall_fmap, Forall_forall. intros kv Hin. right.
    apply (well_formed_other kv kv keysToWrite); [done| |done].
    eapply sublist_subseteq; [|done]. by apply write_scan_inv in Hs as [_ ?].
Qed.

Section DeleteMore.
Implicit Types (line key : string) (lines keys : list string).

Lemma first_match_filter_other lines keys key :
  key ∉ keys →
  first_match (filter (has_none_of keys) lines) key = first_match lines key.
Proof.
  intros Hkey. induction lines as [|line lines IH]; [done|].
  rewrite filter_cons. destruct (decide (has_none_of keys line)) as [Hnone|Hsome].
  - simpl. by rewrite IH.
  - rewrite IH. rewrite first_match_cons_passed_over; [done|]. right.
    apply not_Forall_Exists in Hsome; [|apply _].
    apply Exists_exists in Hsome as (k & Hin & Hhas).
    destruct (lineHasKey line k) as [p|] eqn:Hp; [|done].
    eapply lineHasKey_other; [done|]. by intros <-.
Qed.

End DeleteMore.

(** Delete, then read.  A deleted key reads as the empty string, and the
    keys that are not deleted read as they did before. *)
Theorem delete_then_read lines deleted keys n key :
  keys !! n = Some key →
  (key ∈ deleted → read_mode (delete_mode lines deleted) keys !! n = Some "")
  ∧ (key ∉ deleted →
     read_mode (delete_mode lines deleted) keys !! n = read_mode lines keys !! n).
Proof.
  intros Hn. rewrite delete_mode_filter. split.
  - intros Hin. apply (read_mode_missing _ _ _ key); [done|].
    apply Forall_forall. intros line [Hnone _]%list_elem_of_filter. right.
    unfold has_none_of in Hnone. rewrite Forall_forall in Hnone. by apply Hnone.
  - intros Hnotin. rewrite !read_mode_first_match, !list_lookup_fmap, Hn. simpl.
    by rewrite first_match_filter_other.
Qed.

(** Delete mode only depends on the set of the keys: the order of the
    keys and their repetitions do not matter.  Deleting two lists of keys
    at once is deleting the first, then the second; and deleting the same
    keys again changes nothing. *)
Theorem delete_key_sets lines keys1 keys2 :
  ((∀ key, key ∈ keys1 ↔ key ∈ keys2) →
   delete_mode lines keys1 = delete_mode lines keys2)
  ∧ delete_mode lines (keys1 ++ keys2)
    = delete_mode (delete_mode lines keys1) keys2
  ∧ delete_mode (delete_mode lines keys1) keys1 = delete_mode lines keys1.
Proof.
  rewrite !delete_mode_filter. split_and!.
  - intros Hsame. apply list_filter_iff. intros line. unfold has_none_of.
    rewrite !Forall_forall. by setoid_rewrite Hsame.
  - rewrite list_filter_filter. apply list_filter_iff. intros line.
    unfold has_none_of. rewrite Forall_app. tauto.
  - rewrite list_filter_filter. apply list_filter_iff. tauto.
Qed.

Section WriteShape.
Implicit Types (line : string) (lines : list string).
Implicit Types (kv : string * string) (pending : list (string * string)).

Lemma write_scan_untouched lines pending :
  Forall (untouched_by pending) lines → write_scan lines pending = (lines, pending).
Proof.
  induction 1 as [|line lines Hline _ IH]; simpl; [done|].
  by rewrite write_line_untouched, IH.
Qed.

Lemma write_scan_miss lines pending kv written remaining :
  well_formed pending → kv ∈ pending →
  Forall (λ line, lineHasKey line kv.1 = None) lines →
  write_scan lines pending = (written, remaining) →
  kv ∈ remaining.
Proof.
  intros Hwf Hin Hlines. revert pending written remaining Hwf Hin.
  induction Hlines as [|line lines Hline _ IH];
    intros pending written remaining Hwf Hin; simpl.
  - by intros [= <- <-].
  - destruct (write_line line pending) as [line' pending'] eqn:Hl.
    destruct (write_scan lines pending') as [w r] eqn:Hs. intros [= <- <-].
    destruct (write_line_miss _ _ _ _ _ Hwf Hin Hline Hl) as [Hin' _].
    apply write_line_inv in Hl as [_ Hsub].
    by apply (IH _ _ _ (well_formed_sublist _ _ Hsub Hwf) Hin' Hs).
Qed.

(** What the lines of the pairs that are left have of keys. *)
Lemma untouched_by_appended pending key :
  well_formed pending → key ∉ pending.*1 →
  Forall (λ line, lineHasKey line key = None) (key_value_line <$> pending).
Proof.
  intros Hwf Hkey. apply Forall_fmap, Forall_forall. intros kv Hin.
  by apply (well_formed_other kv kv pending).
Qed.

End WriteShape.

(** Write mode never takes a line away and adds at most one line per pair;
    when no line of the file has a key of the write-set, it leaves the
    lines as they are and appends the lines of all pairs, in the order of
    the request. *)
Theorem write_appends lines keysToWrite :
  (length lines ≤ length (write_mode lines keysToWrite)
   ∧ length (write_mode lines keysToWrite) ≤ length lines + length keysToWrite)%nat
  ∧ (Forall (untouched_by keysToWrite) lines →
     write_mode lines keysToWrite = (lines ++ (key_value_line <$> keysToWrite))%list).
Proof.
  split.
  - unfold write_mode.
    destruct (write_scan lines keysToWrite) as [written remaining] eqn:Hs.
    apply write_scan_inv in Hs as [Hlen Hsub%sublist_length].
    rewrite List.length_app, length_fmap. lia.
  - intros Hall. unfold write_mode. by rewrite write_scan_untouched.
Qed.

(** Write mode is first-match-only.  For a well-formed write-set, the
    first line that has the key of a pair becomes the line of the pair;
    the later lines that have the same key stay as they are; and none of
    the appended lines has the key. *)
Theorem write_first_match_only before line after keysToWrite kv :
  well_formed keysToWrite → kv ∈ keysToWrite →
  Forall (λ l, lineHasKey l kv.1 = None) before →
  has_key kv.1 line →
  let lines := (before ++ line :: after)%list in
  write_mode lines keysToWrite !! length before = Some (key_value_line kv)
  ∧ (∀ j l, after !! j = Some l → has_key kv.1 l →
       write_mode lines keysToWrite !! (length before + S j)%nat = Some l)
  ∧ Forall (λ l, lineHasKey l kv.1 = None)
      (drop (length lines) (write_mode lines keysToWrite)).
Proof.
  intros Hwf Hin Hbefore Hline lines. subst lines. unfold write_mode.
  rewrite write_scan_app.
  destruct (write_scan before keysToWrite) as [w1 p1] eqn:Hs1.
  change (line :: after) with ([line] ++ after)%list.
  cbn [app write_scan].
  pose proof (write_scan_miss _ _ _ _ _ Hwf Hin Hbefore Hs1) as Hin1.
  pose proof Hs1 as [Hlen1 Hsub1]%write_scan_inv.
  pose proof (well_formed_sublist _ _ Hsub1 Hwf) as Hwf1.
  destruct (write_line_hit line p1 kv Hwf1 Hin1 Hline) as (p2 & -> & Hsub2 & Hnot2).
  destruct (write_scan after p2) as [w3 p3] eqn:Hs3.
  pose proof Hs3 as [Hlen3 Hsub3]%write_scan_inv.
  pose proof (well_formed_sublist _ _ Hsub2 Hwf1) as Hwf2.
  assert (kv.1 ∉ p3.*1) as Hnot3.
  { intros Hin3. apply Hnot2. eapply sublist_subseteq; [|done].
    by apply fmap_sublist. }
  rewrite <- !app_assoc. split_and!.
  - rewrite lookup_app_r by lia. by rewrite Hlen1, Nat.sub_diag.
  - intros j l Hj [p Hl].
    rewrite lookup_app_r by lia.
    replace (length before + S j - length w1)%nat with (S j) by lia. simpl.
    apply lookup_app_l_Some.
    eapply (write_scan_pass_lookup after p2 p2); [done..|].
    apply Forall_forall. intros kv' Hin'.
    eapply lineHasKey_other; [done|]. intros Heq. apply Hnot2.
    rewrite Heq. by apply list_elem_of_fmap_2.
  - rewrite (app_assoc w1).
    rewrite drop_app_length'; [|rewrite !List.length_app; simpl; lia].
    apply untouched_by_appended; [|done]. by eapply well_formed_sublist.
Qed.

Section DeleteAfterWrite.
Implicit Types (line : string) (lines keys : list string).
Implicit Types (kv : string * string) (pending : list (string * string)).

Lemma has_key_not_none keys key line :
  key ∈ keys → has_key key line → ¬ has_none_of keys line.
Proof.
  intros Hin [p Hp] Hnone. unfold has_none_of in Hnone.
  rewrite Forall_forall in Hnone. specialize (Hnone _ Hin). congruence.
Qed.

Lemma filter_write_scan lines keys keysToWrite pending written remaining :
  Forall self_matching keysToWrite → keysToWrite.*1 ⊆ keys →
  sublist pending keysToWrite →
  write_scan lines pending = (written, remaining) →
  filter (has_none_of keys) written = filter (has_none_of keys) lines.
Proof.
  intros Hself Hkeys. revert pending written remaining.
  induction lines as [|line lines IH]; intros pending written remaining Hsub; simpl.
  - by intros [= <- <-].
  - destruct (write_line line pending) as [line' pending'] eqn:Hl.
    destruct (write_scan lines pending') as [w r] eqn:Hs. intros [= <- <-].
    pose proof Hl as [Hline' Hsub']%write_line_inv.
    assert (filter (has_none_of keys) w = filter (has_none_of keys) lines) as IH'.
    { eapply IH; [|done]. by etrans. }
    destruct (decide (untouched_by pending line)) as [Hun|Hto].
    { apply write_line_pass in Hl as ->; [|done]. by rewrite !filter_cons, IH'. }
    apply not_Forall_Exists in Hto; [|apply _].
    apply Exists_exists in Hto as (kv0 & Hin0 & Hhas).
    assert (∀ kv, kv ∈ pending → kv.1 ∈ keys) as Hpending.
    { intros kv Hin. apply Hkeys, list_elem_of_fmap_2.
      by eapply sublist_subseteq. }
    rewrite (filter_cons_False _ line).
    2:{ apply (has_key_not_none _ kv0.1); [by apply Hpending|].
        by apply not_eq_None_Some. }
    destruct Hline' as [->|(kv' & Hin' & ->)].
    + rewrite filter_cons_False; [done|].
      apply (has_key_not_none _ kv0.1); [by apply Hpending|].
      by apply not_eq_None_Some.
    + rewrite filter_cons_False; [done|].
      apply (has_key_not_none _ kv'.1); [by apply Hpending|].
      rewrite Forall_forall in Hself. apply Hself.
      by eapply sublist_subseteq.
Qed.

End DeleteAfterWrite.

(** Delete undoes write.  When every pair of the write-set gives a line
    that is found under its key, deleting the written keys (and possibly
    more) after the write leaves what deleting them before the write
    leaves. *)
Theorem delete_after_write lines keysToWrite keys :
  Forall self_matching keysToWrite → keysToWrite.*1 ⊆ keys →
  delete_mode (write_mode lines keysToWrite) keys = delete_mode lines keys.
Proof.
  intros Hself Hkeys. rewrite !delete_mode_filter. unfold write_mode.
  destruct (write_scan lines keysToWrite) as [written remaining] eqn:Hs.
  rewrite filter_app.
  rewrite (filter_write_scan _ _ _ _ _ _ Hself Hkeys (reflexivity _) Hs).
  apply write_scan_inv in Hs as [_ Hsub].
  assert (filter (has_none_of keys) (key_value_line <$> remaining) = []) as ->;
    [|by rewrite app_nil_r].
  induction remaining as [|kv remaining IH]; [done|].
  rewrite fmap_cons, filter_cons_False.
  - apply IH. etrans; [|done]. by apply sublist_cons.
  - apply (has_key_not_none _ kv.1).
    + apply Hkeys, list_elem_of_fmap_2. eapply sublist_subseteq; [done|]. left.
    + rewrite Forall_forall in Hself. apply Hself.
      eapply sublist_subseteq; [done|]. left.
Qed.

Section UniqueMore.
Context {A : Type} (pred : A → A → bool).

Lemma unique_from_adjacent first (l : list A) i a b :
  (first :: unique_from pred first l) !! i = Some a →
  (first :: unique_from pred first l) !! S i = Some b →
  pred a b = false.
Proof.
  revert first i. induction l as [|x l IH]; intros first i; simpl.
  - destruct i; simpl; [done|]. by rewrite lookup_nil.
  - destruct (pred first x) eqn:Hx; [apply IH|].
    destruct i as [|i]; simpl.
    + by intros [= <-] [= <-].
    + apply IH.
Qed.

Lemma unique_from_same first (l : list A) :
  Forall (λ x, pred first x = true) l → unique_from pred first l = [].
Proof. induction 1 as [|x l Hx _ IH]; simpl; [done|]. by rewrite Hx. Qed.

Lemma unique_from_unique first (l : list A) :
  unique_from pred first (unique_from pred first l) = unique_from pred first l
  ∧ ∀ x k, unique_from pred first l = x :: k →
      unique_from pred x k = k.
Proof.
  revert first. induction l as [|y l IH]; intros first; simpl; [done|].
  destruct (pred first y) eqn:Hy.
  - apply IH.
  - simpl. rewrite Hy. destruct (IH y) as [IH1 IH2]. split.
    + by rewrite IH1.
    + intros x k [= <- <-]. done.
Qed.

End UniqueMore.

Section UniqueCover.
Context {A : Type} (pred : A → A → bool).
Hypothesis pred_refl : ∀ a, pred a a = true.

(** Every element is related to one that [unique] keeps. *)
Lemma unique_from_covers first (l : list A) x :
  x ∈ first :: l →
  ∃ y, y ∈ first :: unique_from pred first l ∧ pred y x = true.
Proof.
  revert first. induction l as [|z l IH]; intros first Hin.
  - apply list_elem_of_singleton in Hin. subst x.
    exists first. split; [left|done].
  - simpl. apply elem_of_cons in Hin as [Heq|Hin].
    { subst x. exists first. split; [left|done]. }
    destruct (pred first z) eqn:Hz.
    + apply elem_of_cons in Hin as [Heq|Hin].
      * subst x. exists first. split; [left|done].
      * apply IH. by right.
    + destruct (IH z Hin) as (y & Hy & Hp). exists y. split; [by right|done].
Qed.

Lemma unique_from_distinct first (l : list A) :
  Forall (λ x, pred first x = false) l → 
  (∀ i j x y, l !! i = Some x → l !! j = Some y → i ≠ j → pred x y = false) →
  unique_from pred first l = l.
Proof.
  revert first. induction l as [|z l IH]; intros first; simpl; [done|].
  intros [Hz Hl]%Forall_cons Hpair. rewrite Hz. f_equal. apply IH.
  - apply Forall_lookup. intros i x Hi. by apply (Hpair 0 (S i)).
  - intros i j x y Hi Hj Hne. apply (Hpair (S i) (S j)); [done..|lia].
Qed.

End UniqueCover.

Section UniqueRuns.
Implicit Types (kv first : string * string) (kw run : list (string * string)).

(** The pairs of the key of [first] that follow it are dropped. *)
Lemma unique_from_run first run kw :
  Forall (λ x, x.1 = first.1) run →
  unique_from same_key first (run ++ kw) = unique_from same_key first kw.
Proof.
  induction 1 as [|x run Hx _ IH]; [done|]. simpl.
  unfold same_key at 1. by rewrite bool_decide_eq_true_2.
Qed.

(** A pair of another key starts over. *)
Lemma unique_from_other first kw :
  (∀ x, head kw = Some x → x.1 ≠ first.1) →
  unique_from same_key first kw = unique same_key kw.
Proof.
  destruct kw as [|y kw]; [done|]. intros Hy. simpl.
  unfold same_key at 1. rewrite bool_decide_eq_false_2; [done|].
  intros Heq. by apply (Hy y).
Qed.

(** A pair whose key is not the key of the pair before it is kept, and
    what follows it is compared with it. *)
Lemma unique_from_split first before kv kw :
  (∀ x, last (first :: before) = Some x → x.1 ≠ kv.1) →
  unique_from same_key first (before ++ kv :: kw)
  = (unique_from same_key first before ++ kv :: unique_from same_key kv kw)%list.
Proof.
  revert first. induction before as [|y before IH]; intros first Hlast; simpl.
  - unfold same_key at 1. rewrite bool_decide_eq_false_2; [done|].
    by apply Hlast.
  - destruct (same_key first y) eqn:Hy.
    + apply bool_decide_eq_true_1 in Hy.
      apply IH. intros x Hx. destruct before as [|z before].
      * simpl in Hx. injection Hx as <-. rewrite Hy. by apply Hlast.
      * by apply Hlast.
    + simpl. f_equal. apply IH. intros x Hx. by apply Hlast.
Qed.

Lemma unique_run before kv run kw :
  Forall (λ x, x.1 = kv.1) run →
  (∀ x, last before = Some x → x.1 ≠ kv.1) →
  (∀ x, head kw = Some x → x.1 ≠ kv.1) →
  unique same_key (before ++ kv :: run ++ kw)
  = (unique same_key before ++ kv :: unique same_key kw)%list.
Proof.
  intros Hrun Hbefore Hafter.
  assert (unique_from same_key kv (run ++ kw) = unique same_key kw) as Htail.
  { rewrite unique_from_run by done. by apply unique_from_other. }
  destruct before as [|first before]; simpl.
  - by rewrite Htail.
  - rewrite unique_from_split by done. by rewrite Htail.
Qed.

End UniqueRuns.

(** [keysToWrite.unique(...)] keeps, of every run of consecutive pairs with
    one key, the first pair: a pair, followed by pairs of its key, between
    a list that does not end and a list that does not start with this key,
    is kept alone, and the two lists are treated on their own.  So no two
    neighbours of the result have the same key, the pairs that are kept
    stay in their order, the first pair and the set of keys are the ones
    of the list, and a list in which no key comes twice is left as it is.
    Applying it twice changes nothing. *)
Theorem unique_same_key_spec kw :
  sublist (unique same_key kw) kw
  ∧ head (unique same_key kw) = head kw
  ∧ (∀ i a b, unique same_key kw !! i = Some a →
       unique same_key kw !! S i = Some b → a.1 ≠ b.1)
  ∧ (∀ key, key ∈ (unique same_key kw).*1 ↔ key ∈ kw.*1)
  ∧ unique same_key (unique same_key kw) = unique same_key kw
  ∧ (NoDup kw.*1 → unique same_key kw = kw)
  ∧ (∀ before kv run after,
       kw = (before ++ kv :: run ++ after)%list →
       Forall (λ x, x.1 = kv.1) run →
       (∀ x, last before = Some x → x.1 ≠ kv.1) →
       (∀ x, head after = Some x → x.1 ≠ kv.1) →
       unique same_key kw
       = (unique same_key before ++ kv :: unique same_key after)%list).
Proof.
  split_and!; [| | | | | |by intros before kv run after ->; apply unique_run].
  - apply unique_sublist.
  - by destruct kw.
  - destruct kw as [|first kw]; [done|]. intros i a b Ha Hb.
    pose proof (unique_from_adjacent same_key first kw i a b Ha Hb) as Hp.
    by apply bool_decide_eq_false_1 in Hp.
  - intros key. split.
    + apply sublist_subseteq, fmap_sublist, unique_sublist.
    + intros (kv & -> & Hin)%list_elem_of_fmap.
      destruct kw as [|first kw]; [by apply elem_of_nil in Hin|].
      destruct (unique_from_covers same_key) with (first := first) (l := kw) (x := kv)
        as (y & Hy & Hp); [intros a; by apply bool_decide_eq_true_2|done|].
      apply bool_decide_eq_true_1 in Hp. rewrite <- Hp.
      by apply list_elem_of_fmap_2.
  - destruct kw as [|first kw]; [done|]. simpl.
    by rewrite (proj1 (unique_from_unique same_key first kw)).
  - destruct kw as [|first kw]; [done|]. simpl. intros Hnd. f_equal.
    apply unique_from_distinct.
    + apply NoDup_cons in Hnd as [Hnotin _]. apply Forall_forall.
      intros kv Hin. apply bool_decide_eq_false_2. intros Heq.
      apply Hnotin. rewrite Heq. by apply list_elem_of_fmap_2.
    + apply NoDup_cons in Hnd as [_ Hnd]. intros i j x y Hi Hj Hne.
      apply bool_decide_eq_false_2. intros Heq. apply Hne.
      eapply NoDup_lookup; [done| |]; rewrite list_lookup_fmap.
      * by rewrite Hi.
      * by rewrite Hj, Heq.
Qed.

(** ** More on the command line and the streams *)

Section Options.
Implicit Types (opts : list getopt_result) (o : options).

Lemma conflicts_false m wanted :
  conflicts m wanted = false ↔ m = undefined ∨ m = wanted.
Proof.
  unfold conflicts. destruct m, wanted; simpl; split; try done;
    try (by left); try (by right); by intros [?|?].
Qed.

Lemma getopt_loop_inr opts o0 o :
  getopt_loop opts o0 = inr o →
  (opt_h ∉ opts)
  ∧ (mode o0 ≠ undefined → mode o = mode o0)
  ∧ (∀ opt m, opt ∈ opts → selects opt m → mode o = m)
  ∧ (mode o = mode o0 ∨ ∃ opt, opt ∈ opts ∧ selects opt (mode o))
  ∧ (verboseEnabled o = true ↔ verboseEnabled o0 = true ∨ opt_v ∈ opts)
  ∧ (file_to_parse_name o = file_to_parse_name o0
     ∨ ∃ optarg, opt_f optarg ∈ opts ∧ file_to_parse_name o = substr optarg 0 255).
Proof.
  revert o0. induction opts as [|opt opts IH]; intros o0; simpl.
  - intros [= <-]. split_and!; try done.
    + apply not_elem_of_nil.
    + by intros ?? ?%elem_of_nil.
    + by left.
    + split; [by left|]. by intros [?|?%elem_of_nil].
    + by left.
  - destruct opt; try done.
    + (* -v *)
      intros (Hh & Hkeep & Hsel & Hmode & Hv & Hf)%IH. simpl in *. split_and!.
      * apply not_elem_of_cons. done.
      * done.
      * intros opt m [->|Hin]%elem_of_cons Hm; [done|]. by eapply Hsel.
      * destruct Hmode as [?|(opt & Hin & Hm)]; [by left|].
        right. exists opt. split; [by right|done].
      * rewrite Hv. split; [intros _; right; left|by left].
      * destruct Hf as [?|(a & Hin & Ha)]; [by left|].
        right. exists a. split; [by right|done].
    + (* -f *)
      intros (Hh & Hkeep & Hsel & Hmode & Hv & Hf)%IH. simpl in *. split_and!.
      * apply not_elem_of_cons. done.
      * done.
      * intros opt m [->|Hin]%elem_of_cons Hm; [done|]. by eapply Hsel.
      * destruct Hmode as [?|(opt & Hin & Hm)]; [by left|].
        right. exists opt. split; [by right|done].
      * rewrite Hv. split; [intros [?|?]; [by left|by right; right]|].
        intros [?|[?|?]%elem_of_cons]; [by left|done|by right].
      * right. destruct Hf as [->|(a & Hin & Ha)].
        -- exists optarg. split; [left|done].
        -- exists a. split; [by right|done].
    + (* -w *)
      destruct (conflicts (mode o0) write) eqn:Hc; [done|].
      apply conflicts_false in Hc.
      intros (Hh & Hkeep & Hsel & Hmode & Hv & Hf)%IH. simpl in *.
      specialize (Hkeep ltac:(done)). split_and!.
      * apply not_elem_of_cons. done.
      * intros Hne. destruct Hc; congruence.
      * intros opt m [->|Hin]%elem_of_cons Hm; [by destruct m|]. by eapply Hsel.
      * right. exists opt_w. split; [left|by rewrite Hkeep].
      * rewrite Hv. split; [intros [?|?]; [by left|by right; right]|].
        intros [?|[?|?]%elem_of_cons]; [by left|done|by right].
      * destruct Hf as [?|(a & Hin & Ha)]; [by left|].
        right. exists a. split; [by right|done].
    + (* -r *)
      destruct (conflicts (mode o0) read) eqn:Hc; [done|].
      apply conflicts_false in Hc.
      intros (Hh & Hkeep & Hsel & Hmode & Hv & Hf)%IH. simpl in *.
      specialize (Hkeep ltac:(done)). split_and!.
      * apply not_elem_of_cons. done.
      * intros Hne. destruct Hc; congruence.
      * intros opt m [->|Hin]%elem_of_cons Hm; [by destruct m|]. by eapply Hsel.
      * right. exists opt_r. split; [left|by rewrite Hkeep].
      * rewrite Hv. split; [intros [?|?]; [by left|by right; right]|].
        intros [?|[?|?]%elem_of_cons]; [by left|done|by right].
      * destruct Hf as [?|(a & Hin & Ha)]; [by left|].
        right. exists a. split; [by right|done].
    + (* -d *)
      destruct (conflicts (mode o0) remove) eqn:Hc; [done|].
      apply conflicts_false in Hc.
      intros (Hh & Hkeep & Hsel & Hmode & Hv & Hf)%IH. simpl in *.
      specialize (Hkeep ltac:(done)). split_and!.
      * apply not_elem_of_cons. done.
      * intros Hne. destruct Hc; congruence.
      * intros opt m [->|Hin]%elem_of_cons Hm; [by destruct m|]. by eapply Hsel.
      * right. exists opt_d. split; [left|by rewrite Hkeep].
      * rewrite Hv. split; [intros [?|?]; [by left|by right; right]|].
        intros [?|[?|?]%elem_of_cons]; [by left|done|by right].
      * destruct Hf as [?|(a & Hin & Ha)]; [by left|].
        right. exists a. split; [by right|done].
    + (* any other answer *)
      intros (Hh & Hkeep & Hsel & Hmode & Hv & Hf)%IH. split_and!.
      * apply not_elem_of_cons. done.
      * done.
      * intros opt m [->|Hin]%elem_of_cons Hm; [done|]. by eapply Hsel.
      * destruct Hmode as [?|(opt & Hin & Hm)]; [by left|].
        right. exists opt. split; [by right|done].
      * rewrite Hv. split; [intros [?|?]; [by left|by right; right]|].
        intros [?|[?|?]%elem_of_cons]; [by left|done|by right].
      * destruct Hf as [?|(a & Hin & Ha)]; [by left|].
        right. exists a. split; [by right|done].
Qed.

Lemma getopt_loop_help before after o0 o :
  getopt_loop before o0 = inr o →
  getopt_loop (before ++ opt_h :: after) o0 = inl 0%Z.
Proof.
  revert o0. induction before as [|opt before IH]; intros o0; simpl; [done|].
  destruct opt; try apply IH; try done;
    (destruct (conflicts _ _); [done|apply IH]).
Qed.

Lemma getopt_loop_inl opts o0 code :
  getopt_loop opts o0 = inl code →
  (code = 0%Z ∧ opt_h ∈ opts) ∨ code = (-1)%Z.
Proof.
  revert o0. induction opts as [|opt opts IH]; intros o0; simpl; [done|].
  destruct opt;
    try (intros [[??]|?]%IH; [left; split; [done|by right]|by right]).
  - intros [= <-]. left. split; [done|left].
  - destruct (conflicts _ _); [intros [= <-]; by right|].
    intros [[??]|?]%IH; [left; split; [done|by right]|by right].
  - destruct (conflicts _ _); [intros [= <-]; by right|].
    intros [[??]|?]%IH; [left; split; [done|by right]|by right].
  - destruct (conflicts _ _); [intros [= <-]; by right|].
    intros [[??]|?]%IH; [left; split; [done|by right]|by right].
Qed.

End Options.

(** What the option loop has read when it hands over: [-h] was not among
    the options; every mode option asks for the mode that is set, so that
    no two of them ask for different modes; the verbose flag is set
    exactly if [-v] was given; and the file name is at most 255 characters
    of the argument of a [-f]. *)
Theorem options_accepted opts o :
  getopt_loop opts (Options "" false undefined) = inr o →
  (opt_h ∉ opts)
  ∧ (∀ opt m, opt ∈ opts → selects opt m → mode o = m)
  ∧ (mode o ≠ undefined → ∃ opt, opt ∈ opts ∧ selects opt (mode o))
  ∧ (verboseEnabled o = true ↔ opt_v ∈ opts)
  ∧ (String.length (file_to_parse_name o) ≤ 255)%nat
  ∧ (file_to_parse_name o ≠ "" →
     ∃ optarg, opt_f optarg ∈ opts ∧ file_to_parse_name o = substr optarg 0 255).
Proof.
  intros (Hh & _ & Hsel & Hmode & Hv & Hf)%getopt_loop_inr. simpl in *.
  split_and!; try done.
  - intros Hne. by destruct Hmode as [?|?].
  - rewrite Hv. split; [by intros [?|?]|by right].
  - destruct Hf as [->|(optarg & _ & ->)]; [simpl; lia|]. apply substr_length.
  - intros Hne. by destruct Hf as [?|?].
Qed.

(** Two options that ask for different modes are a usage error: [main]
    returns without a stream, an output or a change of the files; it
    returns -1, unless a [-h] is among the options (or there is no
    argument at all), where it may return 0: it does return 0 when the
    loop reaches a [-h] before it reaches the conflict. *)
Theorem conflicting_modes_rejected argc opts operands fs opt1 opt2 m1 m2 :
  opt1 ∈ opts → opt2 ∈ opts → selects opt1 m1 → selects opt2 m2 → m1 ≠ m2 →
  (main argc opts operands fs = Outcome 0 [] fs []
   ∨ main argc opts operands fs = Outcome (-1) [] fs [])
  ∧ ((2 ≤ argc)%nat → opt_h ∉ opts →
     main argc opts operands fs = Outcome (-1) [] fs [])
  ∧ (∀ before after o,
       opts = (before ++ opt_h :: after)%list →
       getopt_loop before (Options "" false undefined) = inr o →
       main argc opts operands fs = Outcome 0 [] fs []).
Proof.
  intros Hin1 Hin2 Hs1 Hs2 Hne.
  assert (∀ before after o,
            opts = (before ++ opt_h :: after)%list →
            getopt_loop before (Options "" false undefined) = inr o →
            main argc opts operands fs = Outcome 0 [] fs []) as Hhelp.
  { intros before after o -> Hbefore. unfold main.
    destruct (argc <? 2)%nat; [done|].
    by rewrite (getopt_loop_help _ _ _ _ Hbefore). }
  unfold main in *.
  destruct (Nat.ltb_spec argc 2) as [?|?].
  { split_and!; [by left|lia|done]. }
  destruct (getopt_loop opts _) as [code|o] eqn:Hopts.
  - apply getopt_loop_inl in Hopts as [[-> Hh]| ->].
    + split_and!; [by left|done|done].
    + split_and!; [by right|done|done].
  - apply getopt_loop_inr in Hopts as (_ & _ & Hsel & _).
    destruct Hne. by rewrite <- (Hsel _ _ Hin1 Hs1), <- (Hsel _ _ Hin2 Hs2).
Qed.

Section ArgumentsMore.
Implicit Types (arg : string) (args keys : list string).

Lemma read_arguments_is_Some m args acc kw :
  is_Some (read_arguments m args acc kw) ↔ Forall (well_shaped m) args.
Proof.
  revert acc kw. induction args as [|arg args IH]; intros acc kw; simpl.
  - split; [constructor|by eexists].
  - rewrite Forall_cons. destruct m; simpl.
    + destruct (find_first_of "=" arg) as [p|].
      * split; [by intros [??]|by intros [??]].
      * rewrite IH. tauto.
    + destruct (find_first_of "=" arg) as [p|].
      * destruct (Nat.ltb_spec 0 p), (Nat.ltb_spec p (String.length arg - 1));
          simpl.
        -- rewrite IH. split; [intros ?; split; [by exists p|done]|tauto].
        -- split; [by intros [??]|]. intros [(p' & [= <-] & ? & ?) _]. lia.
        -- split; [by intros [??]|]. intros [(p' & [= <-] & ? & ?) _]. lia.
        -- split; [by intros [??]|]. intros [(p' & [= <-] & ? & ?) _]. lia.
      * split; [by intros [??]|]. by intros [(p' & ? & _) _].
    + destruct (find_first_of "=" arg) as [p|].
      * split; [by intros [??]|by intros [??]].
      * rewrite IH. tauto.
    + rewrite IH. tauto.
Qed.

Lemma read_arguments_nonempty m args keys kw :
  m ≠ undefined → args ≠ [] →
  read_arguments m args [] [] = Some (keys, kw) →
  ¬ (keys = [] ∧ unique same_key kw = []).
Proof.
  intros Hm Hargs Hread [-> Hkw]. destruct m; try done.
  - apply read_arguments_keys in Hread as [Hkeys _]; [|by left].
    rewrite app_nil_l in Hkeys. symmetry in Hkeys.
    by apply fmap_nil_inv in Hkeys.
  - apply read_arguments_pairs in Hread as [_ (parsed & -> & Hall)].
    rewrite app_nil_l in Hkw. apply Forall2_length in Hall.
    destruct parsed; [|done]. by destruct args.
  - apply read_arguments_keys in Hread as [Hkeys _]; [|by right].
    rewrite app_nil_l in Hkeys. symmetry in Hkeys.
    by apply fmap_nil_inv in Hkeys.
Qed.

End ArgumentsMore.

(** The usage errors after the options.  With at least one argument and
    the options read, [main] returns -1 without a stream, an output or a
    change of the files exactly when the file name is empty, no mode is
    set, there is no positional argument, or one of them has not the
    shape of the mode: no [=] for read and delete, a first [=] that is
    neither the first nor the last character for write. *)
Theorem usage_errors argc opts operands fs o :
  (2 ≤ argc)%nat →
  getopt_loop opts (Options "" false undefined) = inr o →
  main argc opts operands fs = Outcome (-1) [] fs []
  ↔ file_to_parse_name o = "" ∨ mode o = undefined ∨ operands = []
    ∨ ¬ Forall (well_shaped (mode o)) operands.
Proof.
  intros Hargc Hopts. split.
  - intros Hmain.
    destruct (decide (file_to_parse_name o = "")) as [?|Hname]; [by left|].
    destruct (decide (mode o = undefined)) as [?|Hmode]; [by right; left|].
    destruct (decide (operands = [])) as [?|Hops]; [by right; right; left|].
    right; right; right. intros Hall.
    apply read_arguments_is_Some with (acc := []) (kw := []) in Hall
      as [[keys kw] Hread].
    assert (accepted argc opts operands o keys kw) as Hacc.
    { split_and!; try done. by eapply read_arguments_nonempty. }
    rewrite (main_accepted _ _ _ _ _ _ _ Hacc) in Hmain. simpl in Hmain.
    destruct (open_in fs (file_to_parse_name o)); [|done].
    destruct (mode o); try done; by destruct (open_out _ _).
  - intros Hbad. unfold main.
    destruct (Nat.ltb_spec argc 2) as [?|_]; [lia|]. rewrite Hopts.
    destruct (Nat.eqb_spec (String.length (file_to_parse_name o)) 0) as [|Hlen];
      [done|].
    case_bool_decide as Hmode; [done|].
    destruct Hbad as [Hname|[?|[->|Hbad]]]; [by rewrite Hname in Hlen|done| |].
    + simpl. by destruct (mode o).
    + destruct (read_arguments _ _ _ _) as [[keys kw]|] eqn:Hread; [|done].
      destruct Hbad. apply (read_arguments_is_Some _ _ [] []). by eexists.
Qed.

Section Frame.

Lemma put_open_out_lookup fs fs' name input data path :
  open_in fs name = Some input → open_out fs name = Some fs' →
  path ≠ name → put fs' name data !! path = fs !! path.
Proof.
  intros Hin Hout Hne. rewrite (put_open_out _ _ _ _ _ Hin Hout).
  by rewrite lookup_insert_ne.
Qed.

End Frame.

(** What a run never does.  [main] returns 0 or -1.  A file differs after
    the run only if it is the file an output stream was opened on; a run
    that prints on [std::cout] changes no file and returns 0; and a
    read-mode run changes no file and constructs no output stream. *)
Theorem main_frame argc opts operands fs :
  (returned (main argc opts operands fs) = 0%Z
   ∨ returned (main argc opts operands fs) = (-1)%Z)
  ∧ (∀ path, files (main argc opts operands fs) !! path ≠ fs !! path →
       OpenOut path true ∈ streams (main argc opts operands fs))
  ∧ (cout (main argc opts operands fs) ≠ [] →
       files (main argc opts operands fs) = fs
       ∧ returned (main argc opts operands fs) = 0%Z)
  ∧ (∀ o, getopt_loop opts (Options "" false undefined) = inr o →
       mode o = read →
       files (main argc opts operands fs) = fs
       ∧ ∀ path is_open,
           OpenOut path is_open ∉ streams (main argc opts operands fs)).
Proof.
  destruct (main_cases argc opts operands fs) as [[-> | ->]|(o & keys & kw & Hacc)].
  - simpl. split_and!; [by left|done|done|].
    intros _ _ _. split; [done|]. intros ??. apply not_elem_of_nil.
  - simpl. split_and!; [by right|done|done|].
    intros _ _ _. split; [done|]. intros ??. apply not_elem_of_nil.
  - rewrite (main_accepted _ _ _ _ _ _ _ Hacc). simpl.
    destruct Hacc as (_ & Hopts & _).
    destruct (open_in fs (file_to_parse_name o)) as [input|] eqn:Hin; simpl.
    2:{ split_and!; [by left|done|done|]. intros _ _ _. split; [done|].
        intros ?? Hel. apply list_elem_of_singleton in Hel. discriminate. }
    destruct (mode o) eqn:Hmode; simpl.
    + split_and!; [by left|done|done|]. intros _ _ _. split; [done|].
      intros ?? Hel. apply list_elem_of_singleton in Hel. discriminate.
    + destruct (open_out fs (file_to_parse_name o)) as [fs'|] eqn:Hout; simpl.
      * split_and!; [by left| |done|].
        -- intros path Hne.
           destruct (decide (path = file_to_parse_name o)) as [->|Hp].
           ++ right; left.
           ++ destruct Hne. by eapply put_open_out_lookup.
        -- intros o' Ho'. rewrite Hopts in Ho'. injection Ho' as <-. congruence.
      * split_and!; [by right|done|done|].
        intros o' Ho'. rewrite Hopts in Ho'. injection Ho' as <-. congruence.
    + destruct (open_out fs (file_to_parse_name o)) as [fs'|] eqn:Hout; simpl.
      * split_and!; [by left| |done|].
        -- intros path Hne.
           destruct (decide (path = file_to_parse_name o)) as [->|Hp].
           ++ right; left.
           ++ destruct Hne. by eapply put_open_out_lookup.
        -- intros o' Ho'. rewrite Hopts in Ho'. injection Ho' as <-. congruence.
      * split_and!; [by right|done|done|].
        intros o' Ho'. rewrite Hopts in Ho'. injection Ho' as <-. congruence.
    + split_and!; [by left|done|done|].
      intros o' Ho'. rewrite Hopts in Ho'. injection Ho' as <-. congruence.
Qed.

Section LoadPersist.
Implicit Types (s t line : string) (lines : list string).

Lemma putlines_getlines_from input_line s :
  putlines (getlines_from input_line s) = input_line ++ s
  ∨ putlines (getlines_from input_line s) = input_line ++ s ++ endl.
Proof.
  revert input_line. induction s as [|c s IH]; intros input_line; simpl.
  - destruct input_line as [|d l].
    + by left.
    + right. simpl. by rewrite append_nil_r.
  - destruct (Ascii.eqb_spec c "010") as [->|Hc]; simpl.
    + destruct (IH "") as [->| ->]; [by left|by right].
    + destruct (IH (input_line ++ String c "")) as [->| ->];
        rewrite append_assoc; [by left|by right].
Qed.

Lemma putlines_getlines_from_closed input_line t :
  putlines (getlines_from input_line (t ++ endl)) = input_line ++ t ++ endl.
Proof.
  revert input_line. induction t as [|c t IH]; intros input_line.
  - simpl. by rewrite append_nil_r.
  - rewrite append_cons. simpl.
    destruct (Ascii.eqb_spec c "010") as [->|Hc]; simpl.
    + by rewrite IH.
    + by rewrite IH, append_assoc.
Qed.

Lemma putlines_getlines_from_open input_line t c :
  Ascii.eqb c "010" = false →
  putlines (getlines_from input_line (t ++ String c ""))
  = input_line ++ (t ++ String c "") ++ endl.
Proof.
  intros Hc. revert input_line. induction t as [|d t IH]; intros input_line.
  - change ("" ++ String c "") with (String c ""). simpl. rewrite Hc.
    destruct (input_line ++ String c "") as [|e l] eqn:Hl.
    { by destruct input_line. }
    simpl. by rewrite append_nil_r, <- Hl, append_assoc.
  - rewrite append_cons. simpl.
    destruct (Ascii.eqb_spec d "010") as [->|Hd]; simpl.
    + by rewrite IH.
    + by rewrite IH, append_assoc.
Qed.

End LoadPersist.

(** Reading the lines and writing them out.  No line that [std::getline]
    delivers holds a newline; lines without newline that are written out
    are read back as they were; and writing out the lines read from a
    file gives the file back, with a newline added when its last line had
    none: the file as it is when it ends with a newline, and the file and
    a newline when it ends with another character. *)
Theorem load_persist s :
  Forall no_newline (getlines s)
  ∧ (∀ lines, Forall no_newline lines → getlines (putlines lines) = lines)
  ∧ getlines (putlines (getlines s)) = getlines s
  ∧ (putlines (getlines s) = s ∨ putlines (getlines s) = s ++ endl)
  ∧ putlines (getlines (s ++ endl)) = s ++ endl
  ∧ (∀ t c, s = t ++ String c "" → c ≠ "010"%char →
       putlines (getlines s) = s ++ endl).
Proof.
  assert (Forall no_newline (getlines s)) as Hlines.
  { by apply getlines_from_no_newline. }
  split_and!.
  - done.
  - apply getlines_putlines.
  - by apply getlines_putlines.
  - apply (putlines_getlines_from "" s).
  - apply (putlines_getlines_from_closed "" s).
  - intros t c -> Hc. apply (putlines_getlines_from_open "" t c).
    by apply Ascii.eqb_neq.
Qed.

(** What a run leaves in the file.  After a write or delete run that has
    opened both streams, [main] has returned 0 and the file is readable
    and writable; its lines, read back, are the lines the mode makes of
    the lines it held (in write mode, provided no key and no value holds
    a newline). *)
Theorem run_persists argc opts operands fs o keys kw input :
  accepted argc opts operands o keys kw →
  open_in fs (file_to_parse_name o) = Some input →
  streams (main argc opts operands fs)
  = [OpenIn (file_to_parse_name o) true; OpenOut (file_to_parse_name o) true] →
  (mode o = write →
   Forall (λ kv, no_newline kv.1 ∧ no_newline kv.2) (unique same_key kw)) →
  returned (main argc opts operands fs) = 0%Z
  ∧ ∃ data,
      files (main argc opts operands fs) !! file_to_parse_name o
      = Some (File data true true)
      ∧ getlines data
        = if bool_decide (mode o = write)
          then write_mode (getlines input) (unique same_key kw)
          else delete_mode (getlines input) keys.
Proof.
  intros Hacc Hin. rewrite (main_accepted _ _ _ _ _ _ _ Hacc). cbn zeta.
  rewrite Hin.
  assert (Forall no_newline (getlines input)) as Hlines.
  { by apply getlines_from_no_newline. }
  assert (Forall no_newline (delete_mode (getlines input) keys)) as Hdel.
  { rewrite delete_mode_filter.
    eapply Forall_sublist; [apply sublist_filter|done]. }
  destruct (mode o) eqn:Hmode; try done.
  - destruct (open_out fs (file_to_parse_name o)) as [fs'|] eqn:Hout; [|done].
    intros _ Hnl. split; [done|]. cbn [files].
    rewrite (put_open_out _ _ _ _ _ Hin Hout). eexists. split.
    + apply lookup_insert_eq.
    + rewrite !bool_decide_eq_true_2 by done. apply getlines_putlines.
      apply write_mode_no_newline; [done|].
      eapply Forall_impl; [by apply Hnl|]. intros kv [??].
      by apply key_value_line_no_newline.
  - destruct (open_out fs (file_to_parse_name o)) as [fs'|] eqn:Hout; [|done].
    intros _ _. split; [done|]. cbn [files].
    rewrite (put_open_out _ _ _ _ _ Hin Hout). eexists. split.
    + apply lookup_insert_eq.
    + rewrite !bool_decide_eq_false_2 by done. by apply getlines_putlines.
Qed.

(** ** Instances of the properties above *)

Lemma lineHasKey_shape_witness : lineHasKey " a  = 1" "a" = Some 4.
Proof.
  apply lineHasKey_shape. exists " ", "  ", " 1".
  split_and!; try reflexivity; try done.
  - repeat constructor.
  - repeat constructor.
  - split; intros c [= <-]; reflexivity.
  - simpl. lia.
Defined.

Lemma write_then_read_witness :
  read_mode (write_mode ["x=0"; "a=1"] [("a", "10"); ("c", "3")]) ["c"; "a"] !! 1
  = Some (trim "10").
Proof.
  refine (proj1 (write_then_read ["x=0"; "a=1"] [("a", "10"); ("c", "3")]
                   ["c"; "a"] 1 "a" _ eq_refl) "10" _ eq_refl).
  - well_formed_by_computation.
  - apply list_elem_of_here.
Defined.

Lemma delete_then_read_witness :
  read_mode (delete_mode ["a=1"; "b=2"; "a=3"] ["a"]) ["b"; "a"] !! 1 = Some "".
Proof.
  apply (proj1 (delete_then_read ["a=1"; "b=2"; "a=3"] ["a"] ["b"; "a"] 1 "a"
                  eq_refl)).
  apply list_elem_of_here.
Defined.

Lemma delete_key_sets_witness :
  delete_mode ["a=1"; "b=2"; "c=3"] ["a"; "c"; "a"]
  = delete_mode ["a=1"; "b=2"; "c=3"] ["c"; "a"].
Proof.
  apply (proj1 (delete_key_sets ["a=1"; "b=2"; "c=3"] ["a"; "c"; "a"] ["c"; "a"])).
  intros key. rewrite !elem_of_cons. tauto.
Defined.

Lemma write_appends_witness :
  write_mode ["x=0"; "# a=1"] [("a", "10"); ("c", "3")]
  = ["x=0"; "# a=1"; "a=10"; "c=3"].
Proof.
  apply (proj2 (write_appends ["x=0"; "# a=1"] [("a", "10"); ("c", "3")])).
  repeat constructor.
Defined.

Lemma write_first_match_only_witness :
  write_mode ["x=0"; "a=1"; "a=2"] [("a", "10")] !! 1 = Some "a=10"
  ∧ write_mode ["x=0"; "a=1"; "a=2"] [("a", "10")] !! 2 = Some "a=2".
Proof.
  assert (well_formed [("a", "10")]) as Hwf by well_formed_by_computation.
  assert (Forall (λ l, lineHasKey l "a" = None) ["x=0"]) as Hbefore
    by repeat constructor.
  assert (has_key "a" "a=1") as Hline by by eexists.
  assert (has_key "a" "a=2") as Hlater by by eexists.
  pose proof (write_first_match_only ["x=0"] "a=1" ["a=2"] [("a", "10")] ("a", "10")
                Hwf (list_elem_of_here _ _) Hbefore Hline) as (H1 & H2 & _).
  split; [exact H1|].
  exact (H2 0 "a=2" eq_refl Hlater).
Defined.

Lemma delete_after_write_witness :
  delete_mode (write_mode ["a=1"; "b=2"] [("a", "10"); ("c", "3")]) ["c"; "a"]
  = ["b=2"].
Proof.
  rewrite (delete_after_write ["a=1"; "b=2"] [("a", "10"); ("c", "3")] ["c"; "a"]).
  - reflexivity.
  - repeat constructor; by eexists.
  - intros key. simpl. rewrite !elem_of_cons. tauto.
Defined.

Lemma options_accepted_witness :
  (opt_h ∉ [opt_v; opt_f "conf"; opt_r; opt_r])
  ∧ (String.length "conf" ≤ 255)%nat.
Proof.
  pose proof (options_accepted [opt_v; opt_f "conf"; opt_r; opt_r]
                (Options "conf" true read) eq_refl) as (H1 & _ & _ & _ & H2 & _).
  split; [exact H1 | exact H2].
Defined.

Lemma conflicting_modes_rejected_witness :
  main 6 [opt_f "conf"; opt_r; opt_w] ["a"] (conf_of ["a=1"])
  = Outcome (-1) [] (conf_of ["a=1"]) [].
Proof.
  apply (proj1 (proj2 (conflicting_modes_rejected 6 [opt_f "conf"; opt_r; opt_w] ["a"]
                  (conf_of ["a=1"]) opt_r opt_w read write
                  (list_elem_of_further _ _ _ (list_elem_of_here _ _))
                  (list_elem_of_further _ _ _
                     (list_elem_of_further _ _ _ (list_elem_of_here _ _)))
                  I I ltac:(discriminate)))).
  - lia.
  - intros H. repeat (apply elem_of_cons in H as [H|H]; [discriminate|]).
    by apply elem_of_nil in H.
Defined.

Lemma usage_errors_witness :
  main 5 [opt_f "conf"; opt_r] ["a=1"] (conf_of ["a=1"])
  = Outcome (-1) [] (conf_of ["a=1"]) [].
Proof.
  apply (proj2 (usage_errors 5 [opt_f "conf"; opt_r] ["a=1"] (conf_of ["a=1"])
                  (Options "conf" false read) ltac:(lia) eq_refl)).
  right; right; right. intros H. apply Forall_cons in H as [H _]. discriminate.
Defined.

Lemma run_persists_witness :
  returned (main 5 [opt_f "conf"; opt_d] ["a"] (conf_of ["a=1"; "b=2"])) = 0%Z.
Proof.
  refine (proj1 (run_persists 5 [opt_f "conf"; opt_d] ["a"]
                   (conf_of ["a=1"; "b=2"]) (Options "conf" false remove)
                   ["a"] [] (putlines ["a=1"; "b=2"]) _ eq_refl eq_refl _)).
  - unfold accepted. simpl. split_and!; try done; [lia|]. by intros [? _].
  - intros H. discriminate.
Defined.

Lemma unique_same_key_spec_witness :
  unique same_key [("a", "1"); ("b", "2"); ("b", "3"); ("a", "4"); ("a", "5")]
  = (unique same_key [("a", "1")] ++ ("b", "2")
       :: unique same_key [("a", "4"); ("a", "5")])%list.
Proof.
  refine (proj2 (proj2 (proj2 (proj2 (proj2 (proj2 (unique_same_key_spec
            [("a", "1"); ("b", "2"); ("b", "3"); ("a", "4"); ("a", "5")]))))))
            [("a", "1")] ("b", "2") [("b", "3")] [("a", "4"); ("a", "5")]
            eq_refl _ _ _).
  - by repeat constructor.
  - by intros x [= <-].
  - by intros x [= <-].
Defined.
